(** * znews: the article store and the feed store

    A shallow embedding of package [store] of the znews service (the article
    store of [store/article.go], the feed store and the namespace constant of
    [store/store.go]), with the properties of the article store that its
    specification lists.

    Articles and feeds live behind Go pointers: both stores keep pointers and
    [Create] writes the generated identifier through the pointer it is given.
    The embedding therefore passes an explicit heap next to the store. *)

From Stdlib Require Import ZArith Ascii String List.
From stdpp Require Import base option list functions gmap strings sorting.

Local Open Scope Z_scope.

(** ** Identity generation: [uuid.NewSHA1]

    The stores derive every identifier with [uuid.NewSHA1(namespace, key)] of
    [github.com/google/uuid], that is the version 5 UUID of RFC 4122: the
    SHA-1 digest (FIPS 180-4) of the namespace bytes followed by the key,
    truncated to sixteen bytes, with the version and variant bits set, printed
    in the 8-4-4-4-12 lower-case hexadecimal form. *)

Module SHA1.

(** 32-bit words are integers in [0, 2^32); additions wrap around. *)
Definition w32 (x : Z) : Z := x mod 2 ^ 32.

Definition rotl (n : Z) (x : Z) : Z :=
  w32 (Z.lor (Z.shiftl x n) (Z.shiftr x (32 - n))).

Definition bytes_of_string (s : string) : list Z :=
  map (fun c => Z.of_N (N_of_ascii c)) (list_ascii_of_string s).

(** Big-endian encoding of [x] on [n] bytes. *)
Fixpoint be_bytes (n : nat) (x : Z) : list Z :=
  match n with
  | O => []
  | S k => Z.land (Z.shiftr x (8 * Z.of_nat k)) 255 :: be_bytes k x
  end.

(** Message padding: a single one bit, zeros up to 56 modulo 64, then the
    length in bits on eight bytes. *)
Definition pad (msg : list Z) : list Z :=
  let len := Z.of_nat (length msg) in
  let zeros := Z.to_nat ((55 - len) mod 64) in
  msg ++ 128 :: repeat 0 zeros ++ be_bytes 8 (8 * len).

Fixpoint be_words (fuel : nat) (bs : list Z) : list Z :=
  match fuel, bs with
  | S k, b0 :: b1 :: b2 :: b3 :: rest =>
      Z.lor (Z.shiftl b0 24) (Z.lor (Z.shiftl b1 16) (Z.lor (Z.shiftl b2 8) b3))
        :: be_words k rest
  | _, _ => []
  end.

(** The message schedule, kept newest word first: [w !! 2] is W(t-3). *)
Fixpoint schedule (n : nat) (w : list Z) : list Z :=
  match n with
  | O => w
  | S k =>
      let x := Z.lxor (Z.lxor (w !!! 2%nat) (w !!! 7%nat))
                      (Z.lxor (w !!! 13%nat) (w !!! 15%nat)) in
      schedule k (rotl 1 x :: w)
  end.

Definition f (t : nat) (b c d : Z) : Z :=
  if (t <? 20)%nat then Z.lor (Z.land b c) (Z.land (Z.lxor b 4294967295) d)
  else if (t <? 40)%nat then Z.lxor (Z.lxor b c) d
  else if (t <? 60)%nat then
    Z.lor (Z.lor (Z.land b c) (Z.land b d)) (Z.land c d)
  else Z.lxor (Z.lxor b c) d.

Definition K (t : nat) : Z :=
  if (t <? 20)%nat then 1518500249
  else if (t <? 40)%nat then 1859775393
  else if (t <? 60)%nat then 2400959708
  else 3395469782.

Definition state : Type := Z * Z * Z * Z * Z.

Definition round (st : state) (t : nat) (wt : Z) : state :=
  let '(a, b, c, d, e) := st in
  (w32 (rotl 5 a + f t b c d + e + K t + wt), a, rotl 30 b, c, d).

Fixpoint rounds (st : state) (t : nat) (ws : list Z) : state :=
  match ws with
  | [] => st
  | wt :: rest => rounds (round st t wt) (S t) rest
  end.

Definition block (h : state) (blk : list Z) : state :=
  let ws := rev (schedule 64 (rev (be_words 16 blk))) in
  let '(h0, h1, h2, h3, h4) := h in
  let '(a, b, c, d, e) := rounds h 0 ws in
  (w32 (h0 + a), w32 (h1 + b), w32 (h2 + c), w32 (h3 + d), w32 (h4 + e)).

Fixpoint blocks (fuel : nat) (h : state) (bs : list Z) : state :=
  match fuel, bs with
  | S k, _ :: _ => blocks k (block h (take 64 bs)) (drop 64 bs)
  | _, _ => h
  end.

Definition init : state :=
  (1732584193, 4023233417, 2562383102, 271733878, 3285377520).

Definition sum (msg : list Z) : list Z :=
  let p := pad msg in
  let '(h0, h1, h2, h3, h4) := blocks (length p) init p in
  be_bytes 4 h0 ++ be_bytes 4 h1 ++ be_bytes 4 h2 ++ be_bytes 4 h3
    ++ be_bytes 4 h4.

End SHA1.

Module uuid.

(** [UUID] is sixteen bytes. *)
Definition UUID : Type := list Z.

Definition hexdigit (n : Z) : ascii :=
  ascii_of_N (Z.to_N (if n <? 10 then 48 + n else 87 + n)).

Fixpoint encodeHex (bs : list Z) : string :=
  match bs with
  | [] => EmptyString
  | b :: rest =>
      String (hexdigit (Z.shiftr b 4))
        (String (hexdigit (Z.land b 15)) (encodeHex rest))
  end.

Definition xvalue (c : ascii) : option Z :=
  let n := Z.of_N (N_of_ascii c) in
  if (48 <=? n) && (n <=? 57) then Some (n - 48)
  else if (97 <=? n) && (n <=? 102) then Some (n - 87)
  else if (65 <=? n) && (n <=? 70) then Some (n - 55)
  else None.

Fixpoint decodeHex (cs : list ascii) : option (list Z) :=
  match cs with
  | [] => Some []
  | hi :: lo :: rest =>
      h ← xvalue hi; l ← xvalue lo; bs ← decodeHex rest;
      Some (16 * h + l :: bs)
  | _ => None
  end.

(** [Parse] on the standard 36 character form
    [xxxxxxxx-xxxx-xxxx-xxxx-xxxxxxxxxxxx]. *)
Definition Parse (s : string) : option UUID :=
  let cs := list_ascii_of_string s in
  let dash := ascii_of_N 45 in
  if decide (length cs = 36%nat
             ∧ cs !! 8%nat = Some dash ∧ cs !! 13%nat = Some dash
             ∧ cs !! 18%nat = Some dash ∧ cs !! 23%nat = Some dash)
  then decodeHex (take 8 cs ++ take 4 (drop 9 cs) ++ take 4 (drop 14 cs)
                    ++ take 4 (drop 19 cs) ++ drop 24 cs)
  else None.

(** [MustParse] panics on a malformed string; the only caller passes the
    constant [uuidNamespace], which is well formed. *)
Definition MustParse (s : string) : UUID := default [] (Parse s).

(** [NewHash(sha1.New(), space, data, 5)]. *)
Definition NewSHA1 (space : UUID) (data : list Z) : UUID :=
  let s := take 16 (SHA1.sum (space ++ data)) in
  let s := alter (fun b => Z.lor (Z.land b 15) (Z.shiftl 5 4)) 6%nat s in
  alter (fun b => Z.lor (Z.land b 63) 128) 8%nat s.

Definition String (u : UUID) : string :=
  let dash := String.String (ascii_of_N 45) EmptyString in
  (encodeHex (take 4 u) ++ dash ++ encodeHex (take 2 (drop 4 u)) ++ dash
     ++ encodeHex (take 2 (drop 6 u)) ++ dash
     ++ encodeHex (take 2 (drop 8 u)) ++ dash
     ++ encodeHex (drop 10 u))%string.

End uuid.

(** ** [time.Time]

    A publish date is an instant: seconds and nanoseconds, with no monotonic
    clock reading (dates parsed from a feed or built by [time.Unix] carry
    none), so [After] is the comparison of the wall clock instants. *)

Module time.

Record Time : Type := { sec : Z; nsec : Z }.

(** [ts > us || ts == us && t.nsec() > u.nsec()]. *)
Definition After (t u : Time) : bool :=
  (sec u <? sec t) || ((sec t =? sec u) && (nsec u <? nsec t)).

(** [time.Unix(sec, nsec)]: nanoseconds outside [0, 999999999] are carried
    into the seconds. *)
Definition Unix (s n : Z) : Time :=
  if (n <? 0) || (1000000000 <=? n) then
    let q := Z.quot n 1000000000 in
    let s := s + q in
    let n := n - q * 1000000000 in
    if n <? 0 then {| sec := s - 1; nsec := n + 1000000000 |}
    else {| sec := s; nsec := n |}
  else {| sec := s; nsec := n |}.

End time.

(** ** [types]: articles, enclosures and feeds *)

Module Enclosure.

Record t : Type := { URL : string; Type_ : string }.

End Enclosure.

Module Article.

(** [types.Article]. The store never looks inside [Enclosures]; they are kept
    by value. *)
Record t : Type := {
  FeedID : string;
  ID : string;
  GUID : string;
  Title : string;
  Link : string;
  Comments : string;
  PublishDate : time.Time;
  Categories : list string;
  Enclosures : list Enclosure.t;
  Description : string;
  Author : string;
  Content : string;
  FullText : string
}.

(** The assignment [article.ID = id]. *)
Definition set_ID (id : string) (x : t) : t :=
  {| FeedID := FeedID x; ID := id; GUID := GUID x; Title := Title x;
     Link := Link x; Comments := Comments x; PublishDate := PublishDate x;
     Categories := Categories x; Enclosures := Enclosures x;
     Description := Description x; Author := Author x; Content := Content x;
     FullText := FullText x |}.

(** The assignment [article.FeedID = id]. *)
Definition set_FeedID (id : string) (x : t) : t :=
  {| FeedID := id; ID := ID x; GUID := GUID x; Title := Title x;
     Link := Link x; Comments := Comments x; PublishDate := PublishDate x;
     Categories := Categories x; Enclosures := Enclosures x;
     Description := Description x; Author := Author x; Content := Content x;
     FullText := FullText x |}.

End Article.

Module Feed.

(** [types.Feed]. *)
Record t : Type := {
  ID : string;
  Provider : string;
  Category : string;
  Address : string
}.

Definition set_ID (id : string) (x : t) : t :=
  {| ID := id; Provider := Provider x; Category := Category x;
     Address := Address x |}.

End Feed.

(** ** Pointers, heaps and errors

    A non-nil [*types.Article] is an address; [None] is [nil]. The heap gives
    the struct behind every address. [errors.New(msg)] is its message. *)

Abbreviation ptr := nat.
Abbreviation Heap := (nat → Article.t).
Abbreviation FeedHeap := (nat → Feed.t).
Abbreviation error := string.

Module store.

(** [store/store.go]: the namespace of every resource identifier. *)
Definition uuidNamespace : string := "cabe9f84-ab7e-494c-bf53-7499adeb30ac".

(** [uuid.NewSHA1(namespace, []byte(key)).String()], the expression both
    [Create] methods evaluate. *)
Definition generateID (space : uuid.UUID) (key : string) : string :=
  uuid.String (uuid.NewSHA1 space (SHA1.bytes_of_string key)).

End store.

(** ** [store/article.go] *)

Module ArticleStore.

(** The ordered slice [a], the index [m] and the namespace. The lock is left
    out: every operation below is one critical section run to completion. *)
Record t : Type := {
  a : list ptr;
  m : gmap string ptr;
  uuidNamespace : uuid.UUID
}.

Definition NewArticleStore : t :=
  {| a := []; m := ∅; uuidNamespace := uuid.MustParse store.uuidNamespace |}.

Definition Reset (as_ : t) : t :=
  {| a := []; m := ∅; uuidNamespace := uuidNamespace as_ |}.

(** The backward scan of [Create]:
    [for i := len(as.a) - 2; i >= 0; i-- { ... break }]. The counter [k] is
    [i + 1], so the loop is over when it reaches zero. Inside,
    [append(as.a[:i+1], as.a[i:]...)] shifts the tail one slot to the right
    (the copy is overlap safe) and [as.a[i+1] = article] fills the gap. *)
Fixpoint Create_scan (h : Heap) (as_ : t) (generatedID : string)
    (article : ptr) (k : nat) : t :=
  match k with
  | O => as_
  | S i =>
      if time.After (Article.PublishDate (h article))
                    (Article.PublishDate (h (a as_ !!! i)))
         || bool_decide (i = 0%nat)
      then {| a := <[S i := article]> (take (S i) (a as_) ++ drop i (a as_));
              m := <[generatedID := article]> (m as_);
              uuidNamespace := uuidNamespace as_ |}
      else Create_scan h as_ generatedID article i
  end.

(** [Create] returns the heap and the store after the call, and the pair the
    Go method returns. *)
Definition Create (h : Heap) (as_ : t) (article : option ptr)
    : Heap * t * (option ptr * option error) :=
  match article with
  | None => (h, as_, (None, None))
  | Some article =>
      let generatedID :=
        store.generateID (uuidNamespace as_) (Article.GUID (h article)) in
      match m as_ !! generatedID with
      | Some a0 => (h, as_, (Some a0, None))
      | None =>
          let h := <[article := Article.set_ID generatedID (h article)]> h in
          let n := length (a as_) in
          if bool_decide (n = 0%nat)
             || negb (time.After
                        (Article.PublishDate (h (a as_ !!! (n - 1)%nat)))
                        (Article.PublishDate (h article)))
          then (h,
                {| a := a as_ ++ [article];
                   m := <[generatedID := article]> (m as_);
                   uuidNamespace := uuidNamespace as_ |},
                (Some article, None))
          else if negb (time.After (Article.PublishDate (h article))
                          (Article.PublishDate (h (a as_ !!! 0%nat))))
          then (h,
                {| a := [article] ++ a as_;
                   m := <[generatedID := article]> (m as_);
                   uuidNamespace := uuidNamespace as_ |},
                (Some article, None))
          else (h, Create_scan h as_ generatedID article (n - 1)%nat,
                (Some article, None))
      end
  end.

(** [for i, a := range as.a { if a.ID == cursor { return i + 1, true } }]. *)
Fixpoint findArticleCursorIndex_loop (h : Heap) (cursor : string)
    (rest : list ptr) (i : nat) : nat * bool :=
  match rest with
  | [] => (0%nat, false)
  | a0 :: rest =>
      if bool_decide (Article.ID (h a0) = cursor) then (S i, true)
      else findArticleCursorIndex_loop h cursor rest (S i)
  end.

Definition findArticleCursorIndex (h : Heap) (as_ : t) (cursor : string)
    : nat * bool :=
  if bool_decide (cursor = EmptyString) then (0%nat, true)
  else findArticleCursorIndex_loop h cursor (a as_) 0.

(** [for _, c := range current.Categories { if _, ok := cat[c]; ok { ... } }]. *)
Fixpoint hasCategory (cat : gset string) (cs : list string) : bool :=
  match cs with
  | [] => false
  | c :: cs => if bool_decide (c ∈ cat) then true else hasCategory cat cs
  end.

(** The walk of [List] over [as.a[firstReturnIndex:]]; [found] counts the
    articles appended to [res] so far. *)
Fixpoint List_loop (h : Heap) (cat : gset string) (pageSize : Z)
    (feed : string) (rest : list ptr) (found : Z) (res : list ptr)
    : list ptr :=
  match rest with
  | [] => res
  | current :: rest =>
      if bool_decide (0 < size cat)%nat
         && bool_decide (length (Article.Categories (h current)) = 0%nat)
      then List_loop h cat pageSize feed rest found res
      else if bool_decide (0 < size cat)%nat
              && negb (hasCategory cat (Article.Categories (h current)))
      then List_loop h cat pageSize feed rest found res
      else if negb (bool_decide (feed = EmptyString))
              && negb (bool_decide (Article.FeedID (h current) = feed))
      then List_loop h cat pageSize feed rest found res
      else
        let res := res ++ [current] in
        let found := found + 1 in
        if found =? pageSize then res
        else List_loop h cat pageSize feed rest found res
  end.

Definition List (h : Heap) (as_ : t) (cursor : string) (pageSize : Z)
    (feed : string) (categories : list string)
    : list ptr * option error :=
  let cat : gset string := list_to_set categories in
  let '(firstReturnIndex, ok) := findArticleCursorIndex h as_ cursor in
  if negb ok then ([], Some "could not find provided cursor")
  else
    (List_loop h cat pageSize feed (drop firstReturnIndex (a as_)) 0 [], None).

Definition Get (as_ : t) (ID : string) : option ptr * option error :=
  if bool_decide (ID = EmptyString) then (None, Some "invalid ID provided")
  else
    match m as_ !! ID with
    | None => (None, Some "resource not found")
    | Some a0 => (Some a0, None)
    end.

End ArticleStore.

(** ** The feed store *)

Module FeedStore.

Record t : Type := {
  m : gmap string ptr;
  uuidNamespace : uuid.UUID
}.

Definition NewFeedStore : t :=
  {| m := ∅; uuidNamespace := uuid.MustParse store.uuidNamespace |}.

Definition Reset (fs : t) : t :=
  {| m := ∅; uuidNamespace := uuidNamespace fs |}.

Definition Create (h : FeedHeap) (fs : t) (feed : option ptr)
    : FeedHeap * t * (option ptr * option error) :=
  match feed with
  | None => (h, fs, (None, None))
  | Some feed =>
      let generatedID :=
        store.generateID (uuidNamespace fs) (Feed.Address (h feed)) in
      match m fs !! generatedID with
      | Some a0 => (h, fs, (Some a0, None))
      | None =>
          let h := <[feed := Feed.set_ID generatedID (h feed)]> h in
          (h,
           {| m := <[generatedID := feed]> (m fs);
              uuidNamespace := uuidNamespace fs |},
           (Some feed, None))
      end
  end.

Definition Get (fs : t) (ID : string) : option ptr * option error :=
  if bool_decide (ID = EmptyString) then (None, Some "invalid ID provided")
  else
    match m fs !! ID with
    | None => (None, Some "resource not found")
    | Some a0 => (Some a0, None)
    end.

(** [for _, feed := range fs.m { res = append(res, feed) }]. Go leaves the
    order of a range over a map open; the embedding walks the map in the
    order of [map_to_list], and what is proved of [List] is proved of every
    reordering of its result. *)
Definition List (fs : t) : list ptr * option error :=
  ((map_to_list (m fs)).*2, None).

End FeedStore.

(** ** [rssreader/converters]

    [rss.Item] and [rss.ItemEnclosure] of [github.com/ungerik/go-rss], with
    the fields the converters read. *)

Module rss.

Record ItemEnclosure : Type := { URL : string; Type_ : string }.

Record Item : Type := {
  Title : string;
  Link : string;
  Comments : string;
  PubDate : string;
  GUID : string;
  Category : list string;
  Enclosure : list ItemEnclosure;
  Description : string;
  Author : string;
  Content : string;
  FullText : string
}.

End rss.

Module converters.

Definition dateFormat : string := "Mon, 02 Jan 2006 15:04:05 MST".

Definition rssToNativeEnclosure (ie : rss.ItemEnclosure) : Enclosure.t :=
  {| Enclosure.URL := rss.URL ie; Enclosure.Type_ := rss.Type_ ie |}.

(** [for _, ie := range ies { enclosures = append(enclosures, ...) }]. *)
Fixpoint rssToNativeEnclosures_loop (ies : list rss.ItemEnclosure)
    (enclosures : list Enclosure.t) : list Enclosure.t :=
  match ies with
  | [] => enclosures
  | ie :: ies =>
      rssToNativeEnclosures_loop ies (enclosures ++ [rssToNativeEnclosure ie])
  end.

Definition rssToNativeEnclosures (ies : list rss.ItemEnclosure)
    : list Enclosure.t :=
  rssToNativeEnclosures_loop ies [].

Section Converters.

(** [d.ParseWithFormat(format)] of [rss.Date], that is [time.Parse]: the
    date string and the layout give an instant or an error. *)
Variable ParseWithFormat : string → string → time.Time * option error.

(** The article is freshly allocated, so the pointer the Go function returns
    is rendered by the struct itself; [None] is nil. *)
Definition rssToNativeArticle (i : rss.Item)
    : option Article.t * option error :=
  let '(publishDate, err) := ParseWithFormat (rss.PubDate i) dateFormat in
  match err with
  | Some e => (None, Some ("could not parse publish date: " ++ e)%string)
  | None =>
      (Some {| Article.FeedID := EmptyString;
               Article.ID := EmptyString;
               Article.GUID := rss.GUID i;
               Article.Title := rss.Title i;
               Article.Link := rss.Link i;
               Article.Comments := rss.Comments i;
               Article.PublishDate := publishDate;
               Article.Categories := rss.Category i;
               Article.Enclosures := rssToNativeEnclosures (rss.Enclosure i);
               Article.Description := rss.Description i;
               Article.Author := rss.Author i;
               Article.Content := rss.Content i;
               Article.FullText := rss.FullText i |},
       None)
  end.

(** The loop of [RSSToNativeArticles]; the slice holds what
    [rssToNativeArticle] returned, nil or not. *)
Fixpoint RSSToNativeArticles_loop (is_ : list rss.Item)
    (articles : list (option Article.t))
    : option (list (option Article.t)) * option error :=
  match is_ with
  | [] => (Some articles, None)
  | i :: is_ =>
      let '(a0, err) := rssToNativeArticle i in
      match err with
      | Some e => (None, Some e)
      | None => RSSToNativeArticles_loop is_ (articles ++ [a0])
      end
  end.

(** The outer [None] is the nil slice. *)
Definition RSSToNativeArticles (is_ : list rss.Item)
    : option (list (option Article.t)) * option error :=
  if bool_decide (length is_ = 0%nat) then (None, None)
  else RSSToNativeArticles_loop is_ [].

End Converters.

End converters.

(** ** [feedconsumer]

    [FeedConsumer] holds a [Feed] and an [ArticleStore], two interfaces: the
    embedding takes their methods as the variables [Load] and [Create].
    [Load] hands back pointers, so it reads and may extend the heap. *)

Module feedconsumer.

Section FeedConsumer.

Context {Store : Type}.
Variable Load : Heap → string → Heap * (list ptr * option error).
Variable Create :
  Heap → Store → option ptr → Heap * Store * (option ptr * option error).

(** [for _, article := range articles { ... }]. *)
Fixpoint Consume_loop (h : Heap) (hf : FeedHeap) (st : Store) (feed : ptr)
    (articles : list ptr) : Heap * Store * option error :=
  match articles with
  | [] => (h, st, None)
  | article :: articles =>
      let h :=
        <[article := Article.set_FeedID (Feed.ID (hf feed)) (h article)]> h in
      let '(h, st, (_, err)) := Create h st (Some article) in
      match err with
      | Some e => (h, st, Some e)
      | None => Consume_loop h hf st feed articles
      end
  end.

Definition Consume (h : Heap) (hf : FeedHeap) (st : Store) (feed : ptr)
    : Heap * Store * option error :=
  let '(h, (articles, err)) := Load h (Feed.Address (hf feed)) in
  match err with
  | Some e =>
      (h, st, Some ("could not load articles from the feed: " ++ e)%string)
  | None =>
      if bool_decide (length articles = 0%nat) then (h, st, None)
      else Consume_loop h hf st feed articles
  end.

End FeedConsumer.

End feedconsumer.

Arguments store.generateID : simpl never.
Arguments ArticleStore.Create : simpl never.
Arguments ArticleStore.List : simpl never.
Arguments FeedStore.Create : simpl never.

(** ** Call sequences, reachable states and the vocabulary of the properties *)

(** [Create] called on each article of a list, in order. *)
Fixpoint CreateAll (h : Heap) (as_ : ArticleStore.t) (articles : list ptr)
    : Heap * ArticleStore.t :=
  match articles with
  | [] => (h, as_)
  | article :: rest =>
      let '(h', as', _) := ArticleStore.Create h as_ (Some article) in
      CreateAll h' as' rest
  end.

(** The states a store goes through: a fresh store over any heap, then any
    number of [Create] (of an article or of nil) and [Reset] calls. *)
Inductive reachable : Heap → ArticleStore.t → Prop :=
  | reachable_new (h : Heap) : reachable h ArticleStore.NewArticleStore
  | reachable_Create (h : Heap) (as_ : ArticleStore.t) (article : option ptr) :
      reachable h as_ →
      reachable (ArticleStore.Create h as_ article).1.1
                (ArticleStore.Create h as_ article).1.2
  | reachable_Reset (h : Heap) (as_ : ArticleStore.t) :
      reachable h as_ → reachable h (ArticleStore.Reset as_).

Definition date (h : Heap) (p : ptr) : time.Time :=
  Article.PublishDate (h p).

(** [p] is published no later than [q]. *)
Definition not_later (h : Heap) (p q : ptr) : Prop :=
  time.After (date h p) (date h q) = false.

(** [p] is published strictly before [q]. *)
Definition earlier (h : Heap) (p q : ptr) : Prop :=
  time.After (date h q) (date h p) = true.

(** Non-descending order of publish date, between any two positions. *)
Definition chronological (h : Heap) (l : list ptr) : Prop :=
  StronglySorted (not_later h) l.

(** The identifier [Create] computes for the article behind [p]. *)
Definition article_id (h : Heap) (as_ : ArticleStore.t) (p : ptr) : string :=
  store.generateID (ArticleStore.uuidNamespace as_) (Article.GUID (h p)).

(** The sequence and the index hold the same articles, each once, under its
    own identifier. *)
Record bijection (h : Heap) (as_ : ArticleStore.t) : Prop := {
  bij_once : NoDup (ArticleStore.a as_);
  bij_indexed : ∀ p, p ∈ ArticleStore.a as_ →
                ArticleStore.m as_ !! Article.ID (h p) = Some p;
  bij_member : ∀ k p, ArticleStore.m as_ !! k = Some p →
               p ∈ ArticleStore.a as_ ∧ Article.ID (h p) = k
}.

(** What every reachable state satisfies. *)
Record store_inv (h : Heap) (as_ : ArticleStore.t) : Prop := {
  inv_bij : bijection h as_;
  inv_id : ∀ p, p ∈ ArticleStore.a as_ → Article.ID (h p) = article_id h as_ p;
  inv_sorted : chronological h (ArticleStore.a as_)
}.

(** The states a feed store goes through, like [reachable]. *)
Inductive feed_reachable : FeedHeap → FeedStore.t → Prop :=
  | feed_reachable_new (h : FeedHeap) :
      feed_reachable h FeedStore.NewFeedStore
  | feed_reachable_Create (h : FeedHeap) (fs : FeedStore.t)
      (feed : option ptr) :
      feed_reachable h fs →
      feed_reachable (FeedStore.Create h fs feed).1.1
                     (FeedStore.Create h fs feed).1.2
  | feed_reachable_Reset (h : FeedHeap) (fs : FeedStore.t) :
      feed_reachable h fs → feed_reachable h (FeedStore.Reset fs).

(** The identifier [FeedStore.Create] computes for the feed behind [f]. *)
Definition feed_id (h : FeedHeap) (fs : FeedStore.t) (f : ptr) : string :=
  store.generateID (FeedStore.uuidNamespace fs) (Feed.Address (h f)).

(** The date of the item parses. *)
Definition parses (ParseWithFormat : string → string → time.Time * option error)
    (i : rss.Item) : Prop :=
  (ParseWithFormat (rss.PubDate i) converters.dateFormat).2 = None.

(** ** Placement, filters, pages and the paginating client *)

(** Where a new article [p] stands between the articles [l1] before it and
    [l2] after it: at the end, after an article that is not later; or before
    a last article that is later, after an article that is earlier and before
    one that is not earlier. *)
Definition placed (h : Heap) (p : ptr) (l1 l2 : list ptr) : Prop :=
  (l2 = [] ∧ ∀ x, last l1 = Some x → not_later h x p)
  ∨ ((∃ y, last l2 = Some y ∧ earlier h p y)
     ∧ (∀ x, last l1 = Some x → earlier h x p)
     ∧ (∀ y, head l2 = Some y → not_later h p y)).

(** The three guards of the loop body of [List], each a [continue]. *)
Definition selected (h : Heap) (cat : gset string) (feed : string)
    (current : ptr) : bool :=
  negb (bool_decide (0 < size cat)%nat
        && bool_decide (length (Article.Categories (h current)) = 0%nat))
  && negb (bool_decide (0 < size cat)%nat
           && negb (ArticleStore.hasCategory cat
                      (Article.Categories (h current))))
  && negb (negb (bool_decide (feed = EmptyString))
           && negb (bool_decide (Article.FeedID (h current) = feed))).

(** The filter of [List] in the words of its contract: with category filters
    the article has one of the requested categories, and with a feed filter
    the article belongs to that feed. *)
Definition included (h : Heap) (categories : list string) (feed : string)
    (p : ptr) : Prop :=
  (categories = []
   ∨ Exists (λ c, c ∈ categories) (Article.Categories (h p)))
  ∧ (feed = EmptyString ∨ Article.FeedID (h p) = feed).

#[global] Instance included_dec (h : Heap) (categories : list string)
    (feed : string) (p : ptr) : Decision (included h categories feed p).
Proof. unfold included. apply _. Defined.

(** The first [pageSize] articles, or all of them when [pageSize] is not
    positive. *)
Definition page (pageSize : Z) (l : list ptr) : list ptr :=
  if 0 <? pageSize then take (Z.to_nat pageSize) l else l.

(** A client that reads the whole store page by page: [List] from the empty
    cursor, then from the identifier of the last article of each page, until
    a page comes back empty. [None] when [List] fails or the fuel runs out. *)
Fixpoint paginate (fuel : nat) (h : Heap) (as_ : ArticleStore.t)
    (pageSize : Z) (cursor : string) : option (list ptr) :=
  match fuel with
  | O => None
  | S fuel =>
      match ArticleStore.List h as_ cursor pageSize EmptyString [] with
      | (_, Some _) => None
      | (res, None) =>
          match last res with
          | None => Some []
          | Some q =>
              rest ← paginate fuel h as_ pageSize (Article.ID (h q));
              Some (res ++ rest)
          end
      end
  end.

(** ** Fixtures of the repository's tests *)

Module Examples.

(** An article as the tests build them: feed, GUID, [time.Unix(0, n)] and
    categories; every other field is the zero value. *)
Definition article (feed guid : string) (n : Z) (categories : list string)
    : Article.t :=
  {| Article.FeedID := feed; Article.ID := EmptyString;
     Article.GUID := guid; Article.Title := EmptyString;
     Article.Link := EmptyString; Article.Comments := EmptyString;
     Article.PublishDate := time.Unix 0 n; Article.Categories := categories;
     Article.Enclosures := []; Article.Description := EmptyString;
     Article.Author := EmptyString; Article.Content := EmptyString;
     Article.FullText := EmptyString |}.

(** The heap with the given articles at the addresses 0, 1, 2, ... *)
Definition heap_of (l : list Article.t) : Heap :=
  λ p, default (article EmptyString EmptyString 0 []) (l !! p).

(** "three articles appended in the correct order". *)
Definition three : Heap :=
  heap_of [article EmptyString "first" 1 [];
           article EmptyString "third" 3 [];
           article EmptyString "second" 2 []].

(** The five articles of [TestArticleStoreList]. *)
Definition five : Heap :=
  heap_of [article "feed_id" "first" 1 ["cat_1"; "cat_4"];
           article "feed_id" "second" 2 ["cat_1"; "cat_3"];
           article "feed_id2" "third" 3 ["cat_1"];
           article "feed_id" "fourth" 4 [];
           article "feed_id2" "fifth" 5 ["cat_3"]].

(** Two articles published at the same instant around a later one. *)
Definition ties : Heap :=
  heap_of [article EmptyString "a" 1 [];
           article EmptyString "b" 2 [];
           article EmptyString "c" 1 []].

(** "existent return article and do not duplicate record", with a title to
    tell the two values apart. *)
Definition twice : Heap :=
  heap_of [article EmptyString "test_guid" 0 [];
           Article.set_ID "preset"
             (article "other_feed" "test_guid" 7 ["cat_1"])].

(** The feed of [TestFeedStoreCreate]. *)
Definition feeds : FeedHeap :=
  λ _, {| Feed.ID := EmptyString; Feed.Provider := "provider";
          Feed.Category := "category"; Feed.Address := "test_guid" |}.

Definition five_store : Heap * ArticleStore.t :=
  CreateAll five ArticleStore.NewArticleStore [0; 1; 2; 3; 4]%nat.

Definition ties_store : Heap * ArticleStore.t :=
  CreateAll ties ArticleStore.NewArticleStore [0; 1]%nat.

(** Two feeds with the same address and a third one. *)
Definition three_feeds : FeedHeap :=
  λ f, {| Feed.ID := EmptyString; Feed.Provider := "provider";
          Feed.Category := "category";
          Feed.Address := if bool_decide (f = 2%nat) then "test_guid_2"
                          else "test_guid" |}.

Definition feed_store : FeedHeap * FeedStore.t :=
  (FeedStore.Create
     (FeedStore.Create three_feeds FeedStore.NewFeedStore (Some 0%nat)).1.1
     (FeedStore.Create three_feeds FeedStore.NewFeedStore (Some 0%nat)).1.2
     (Some 2%nat)).1.

(** A feed that always delivers the first three articles of the heap, like
    the [MockFeed] of the consumer's tests. *)
Definition load_three (h : Heap) (address : string)
    : Heap * (list ptr * option error) :=
  (h, ([0; 1; 2]%nat, None)).

(** A store that takes one article and then fails, like the
    [MockArticleStore] of the consumer's tests; its state counts the calls. *)
Definition create_once (h : Heap) (calls : nat) (article : option ptr)
    : Heap * nat * (option ptr * option error) :=
  if bool_decide (calls = 0%nat) then (h, S calls, (article, None))
  else (h, S calls, (None, Some "random error")).

(** A date parser that accepts every string but the empty one. *)
Definition parse_nonempty (d format : string) : time.Time * option error :=
  if bool_decide (d = EmptyString)
  then (time.Unix 0 0, Some "cannot parse")
  else (time.Unix (Z.of_nat (String.length d)) 0, None).

Definition item (guid pubDate : string)
    (enclosures : list rss.ItemEnclosure) : rss.Item :=
  {| rss.Title := "title"; rss.Link := "link"; rss.Comments := "comments";
     rss.PubDate := pubDate; rss.GUID := guid;
     rss.Category := ["cat_1"; "cat_2"]; rss.Enclosure := enclosures;
     rss.Description := "description"; rss.Author := "author";
     rss.Content := "content"; rss.FullText := "full_text" |}.

End Examples.

(** ** Order of instants *)

Lemma After_irrefl (t : time.Time) : time.After t t = false.
Proof. unfold time.After. destruct t as [s n]; simpl. lia. Qed.

Lemma After_asym (t u : time.Time) :
  time.After t u = true → time.After u t = false.
Proof. unfold time.After. destruct t, u; simpl. lia. Qed.

Lemma After_total (t u : time.Time) :
  time.After t u = false → time.After u t = false → t = u.
Proof.
  unfold time.After. destruct t as [s n], u as [s' n']; simpl. intros H1 H2.
  assert (s = s' ∧ n = n') as [-> ->] by lia. reflexivity.
Qed.

Lemma not_After_trans (t u v : time.Time) :
  time.After t u = false → time.After u v = false → time.After t v = false.
Proof. unfold time.After. destruct t, u, v; simpl. lia. Qed.

Lemma not_After_After_trans (t u v : time.Time) :
  time.After t u = false → time.After v u = true → time.After v t = true.
Proof. unfold time.After. destruct t, u, v; simpl. lia. Qed.

(** ** The heap after [article.ID = generatedID] *)

Lemma date_set_ID (h : Heap) (p q : ptr) (id : string) :
  date (<[p := Article.set_ID id (h p)]> h) q = date h q.
Proof.
  unfold date. destruct (decide (p = q)) as [->|Hne].
  - rewrite fn_lookup_insert. reflexivity.
  - rewrite fn_lookup_insert_ne by done. reflexivity.
Qed.

Lemma GUID_set_ID (h : Heap) (p q : ptr) (id : string) :
  Article.GUID (<[p := Article.set_ID id (h p)]> h q) = Article.GUID (h q).
Proof.
  destruct (decide (p = q)) as [->|Hne].
  - rewrite fn_lookup_insert. reflexivity.
  - rewrite fn_lookup_insert_ne by done. reflexivity.
Qed.

(** ** The three insertion paths of [Create] *)

(** Shifting the tail and filling the gap inserts after position [i]. *)
Lemma shift_and_fill (l : list ptr) (i : nat) (p : ptr) :
  (i < length l)%nat →
  <[S i := p]> (take (S i) l ++ drop i l) = take (S i) l ++ p :: drop (S i) l.
Proof.
  intros Hi.
  destruct (lookup_lt_is_Some_2 l i Hi) as [x Hx].
  rewrite (drop_S l x i Hx).
  assert (length (take (S i) l) = S i) as Hlen by (rewrite length_take; lia).
  rewrite insert_app_r_alt by lia.
  rewrite Hlen, Nat.sub_diag. reflexivity.
Qed.

Lemma Create_scan_spec (h : Heap) (as_ : ArticleStore.t) (gid : string)
    (p : ptr) (k : nat) :
  (0 < k < length (ArticleStore.a as_))%nat →
  ∃ i, (i < k)%nat
    ∧ ArticleStore.Create_scan h as_ gid p k
      = {| ArticleStore.a := take (S i) (ArticleStore.a as_)
                               ++ p :: drop (S i) (ArticleStore.a as_);
           ArticleStore.m := <[gid := p]> (ArticleStore.m as_);
           ArticleStore.uuidNamespace := ArticleStore.uuidNamespace as_ |}
    ∧ (time.After (date h p) (date h (ArticleStore.a as_ !!! i)) = true
       ∨ i = 0%nat)
    ∧ ((S i < k)%nat →
       time.After (date h p) (date h (ArticleStore.a as_ !!! S i)) = false).
Proof.
  induction k as [|i IH]; intros [Hpos Hlt]; [lia|].
  simpl. fold (date h p). fold (date h (ArticleStore.a as_ !!! i)).
  destruct (time.After (date h p) (date h (ArticleStore.a as_ !!! i))) eqn:Hafter;
    [|case_bool_decide as Hi0]; simpl.
  - exists i. rewrite shift_and_fill by lia. repeat split; auto; lia.
  - exists i. rewrite shift_and_fill by lia. repeat split; auto; lia.
  - destruct IH as (j & Hj & Heq & Hfound & Hskip); [lia|].
    exists j. repeat split; auto.
    intros Hlt'. destruct (decide (S j = i)) as [->|Hne]; [done|].
    apply Hskip. lia.
Qed.

Lemma lookup_total_last (l : list ptr) (x : ptr) :
  last l = Some x → l !!! (length l - 1)%nat = x.
Proof.
  rewrite last_lookup. intros H. apply list_lookup_total_correct.
  rewrite <- H. f_equal. lia.
Qed.

Lemma last_drop_lt (l : list ptr) (n : nat) :
  (n < length l)%nat → last (drop n l) = last l.
Proof.
  intros Hn. rewrite !last_lookup, length_drop, lookup_drop. f_equal. lia.
Qed.

Lemma last_take_S (l : list ptr) (i : nat) :
  (i < length l)%nat → last (take (S i) l) = l !! i.
Proof.
  intros Hi. rewrite last_lookup, length_take_le by lia.
  simpl. apply lookup_take_lt. lia.
Qed.

Lemma lookup_total_head (l : list ptr) (x : ptr) :
  head l = Some x → l !!! 0%nat = x.
Proof. destruct l; simpl; congruence. Qed.

(** [Create] of an article whose identifier is not indexed yet. *)
Lemma Create_fresh (h : Heap) (as_ : ArticleStore.t) (p : ptr) :
  ArticleStore.m as_ !! article_id h as_ p = None →
  ∃ l1 l2,
    ArticleStore.a as_ = l1 ++ l2
    ∧ placed h p l1 l2
    ∧ ArticleStore.Create h as_ (Some p)
      = (<[p := Article.set_ID (article_id h as_ p) (h p)]> h,
         {| ArticleStore.a := l1 ++ p :: l2;
            ArticleStore.m := <[article_id h as_ p := p]> (ArticleStore.m as_);
            ArticleStore.uuidNamespace := ArticleStore.uuidNamespace as_ |},
         (Some p, None)).
Proof.
  intros Hnone. unfold ArticleStore.Create. fold (article_id h as_ p).
  rewrite Hnone. cbv zeta.
  set (gid := article_id h as_ p).
  set (h' := <[p := Article.set_ID gid (h p)]> h).
  set (l := ArticleStore.a as_).
  change (Article.PublishDate (h' ?x)) with (date h' x).
  assert (Hd : ∀ q, date h' q = date h q) by (intros q; apply date_set_ID).
  rewrite !Hd.
  case_bool_decide as Hn; simpl.
  { exists l, []. rewrite app_nil_r. split; [done|]. split; [|done].
    left. split; [done|]. intros x Hx.
    apply length_zero_iff_nil in Hn. rewrite Hn in Hx. discriminate. }
  destruct (time.After (date h (l !!! (length l - 1)%nat)) (date h p))
    eqn:Hlast; simpl.
  2:{ exists l, []. rewrite app_nil_r. split; [done|]. split; [|done].
      left. split; [done|]. intros x Hx. unfold not_later.
      rewrite <- (lookup_total_last l x Hx). exact Hlast. }
  assert (Hlast' : ∃ y, last l = Some y ∧ earlier h p y).
  { destruct (last l) as [y|] eqn:Hy.
    - exists y. split; [done|]. unfold earlier.
      rewrite <- (lookup_total_last l y Hy). exact Hlast.
    - apply last_None in Hy. rewrite Hy in Hn. done. }
  destruct (time.After (date h p) (date h (l !!! 0%nat))) eqn:Hfirst; simpl.
  2:{ exists [], l. split; [done|]. split; [|done].
      right. split; [done|]. split; [intros x Hx; discriminate|].
      intros y Hy. unfold not_later.
      rewrite <- (lookup_total_head l y Hy). exact Hfirst. }
  assert (Hlen : (2 ≤ length l)%nat).
  { destruct l as [|x [|y l']] eqn:El; simpl in *; try lia.
    apply After_asym in Hlast. congruence. }
  destruct (Create_scan_spec h' as_ gid p (length l - 1))
    as (i & Hi & Hscan & Hfound & Hskip); [fold l; lia|].
  fold l in Hscan, Hfound, Hskip. rewrite !Hd in Hfound, Hskip.
  exists (take (S i) l), (drop (S i) l).
  split; [by rewrite take_drop|]. split; [|by rewrite Hscan].
  right. destruct Hlast' as (y & Hy & Hyp).
  assert (Hi' : l !! i = Some (l !!! i))
    by (apply list_lookup_lookup_total_lt; lia).
  assert (HSi : l !! S i = Some (l !!! S i))
    by (apply list_lookup_lookup_total_lt; lia).
  split; [|split].
  - exists y. split; [|done]. rewrite last_drop_lt by lia. done.
  - intros x Hx. rewrite last_take_S in Hx by lia.
    assert (x = l !!! i) as -> by congruence.
    unfold earlier. destruct Hfound as [Hf| ->]; done.
  - intros z Hz. rewrite head_lookup, lookup_drop, Nat.add_0_r in Hz.
    assert (z = l !!! S i) as -> by congruence.
    unfold not_later. destruct (decide (S i < length l - 1)%nat) as [Hlt|Hge].
    + by apply Hskip.
    + assert (S i = length l - 1)%nat as Heq by lia.
      rewrite Heq, (lookup_total_last l y Hy). apply After_asym, Hyp.
Qed.

(** ** Order is kept by an insertion at the right place *)

Lemma not_later_refl (h : Heap) (p : ptr) : not_later h p p.
Proof. apply After_irrefl. Qed.

Lemma not_later_trans (h : Heap) (p q r : ptr) :
  not_later h p q → not_later h q r → not_later h p r.
Proof. apply not_After_trans. Qed.

Lemma earlier_not_later (h : Heap) (p q : ptr) :
  earlier h p q → not_later h p q.
Proof. apply After_asym. Qed.

Lemma chronological_last (h : Heap) (l : list ptr) (z : ptr) :
  chronological h l → last l = Some z → ∀ x, x ∈ l → not_later h x z.
Proof.
  intros Hs Hz x Hx. apply last_Some in Hz as [l' ->].
  apply StronglySorted_app in Hs as (Hcross & _ & _).
  apply elem_of_app in Hx as [Hx|Hx].
  - apply Hcross; [done|]. apply list_elem_of_singleton. done.
  - apply list_elem_of_singleton in Hx as ->. apply not_later_refl.
Qed.

Lemma chronological_head (h : Heap) (l : list ptr) (y : ptr) :
  chronological h l → head l = Some y → ∀ x, x ∈ l → not_later h y x.
Proof.
  intros Hs Hy x Hx. destruct l as [|y' l']; [done|].
  simpl in Hy. injection Hy as ->.
  apply StronglySorted_cons in Hs as [Hall _].
  apply elem_of_cons in Hx as [->|Hx]; [apply not_later_refl|].
  rewrite Forall_forall in Hall. by apply Hall.
Qed.

(** With the sequence in order, [placed] bounds every neighbour, not only the
    adjacent ones. *)
Lemma placed_bounds (h : Heap) (p : ptr) (l1 l2 : list ptr) :
  chronological h (l1 ++ l2) → placed h p l1 l2 →
  (∀ x, x ∈ l1 → not_later h x p) ∧ (∀ y, y ∈ l2 → not_later h p y)
  ∧ (l2 ≠ [] → ∀ x, x ∈ l1 → earlier h x p).
Proof.
  intros Hs Hp. apply StronglySorted_app in Hs as (_ & Hs1 & Hs2).
  assert (Hstrict : (∀ x, last l1 = Some x → earlier h x p) →
                    ∀ x, x ∈ l1 → earlier h x p).
  { intros Hz x Hx. destruct (last l1) as [z|] eqn:Ez.
    - pose proof (chronological_last h l1 z Hs1 Ez x Hx) as Hxz.
      specialize (Hz z eq_refl). unfold earlier, not_later in *.
      eapply not_After_After_trans; eauto.
    - apply last_None in Ez. subst l1. by apply elem_of_nil in Hx. }
  destruct Hp as [[-> Hz]|(_ & Hz & Hy)].
  - split; [|split]; [|intros y Hy; by apply elem_of_nil in Hy|done].
    intros x Hx. destruct (last l1) as [z|] eqn:Ez.
    + apply (not_later_trans h x z p);
        [exact (chronological_last h l1 z Hs1 Ez x Hx)|by apply Hz].
    + apply last_None in Ez. subst l1. by apply elem_of_nil in Hx.
  - split; [|split].
    + intros x Hx. apply earlier_not_later. by apply Hstrict.
    + intros y Hy'. destruct (head l2) as [y0|] eqn:Ey.
      * apply (not_later_trans h p y0 y); [by apply Hy|].
        exact (chronological_head h l2 y0 Hs2 Ey y Hy').
      * apply head_None in Ey. subst l2. by apply elem_of_nil in Hy'.
    + intros _. by apply Hstrict.
Qed.

Lemma chronological_insert (h : Heap) (p : ptr) (l1 l2 : list ptr) :
  chronological h (l1 ++ l2) → placed h p l1 l2 →
  chronological h (l1 ++ p :: l2).
Proof.
  intros Hs Hp. destruct (placed_bounds h p l1 l2 Hs Hp) as (Hb1 & Hb2 & _).
  apply StronglySorted_app in Hs as (Hcross & Hs1 & Hs2).
  apply StronglySorted_app. split; [|split; [done|]].
  - intros x1 x2 H1 H2. apply elem_of_cons in H2 as [->|H2]; auto.
  - apply StronglySorted_cons. split; [|done].
    apply Forall_forall. exact Hb2.
Qed.

Lemma chronological_ext (h h' : Heap) (l : list ptr) :
  (∀ q, date h' q = date h q) → chronological h l → chronological h' l.
Proof.
  intros Hd. unfold chronological. induction 1 as [|x l Hs IH Hall].
  - constructor.
  - constructor; [done|]. eapply Forall_impl; [exact Hall|].
    intros y Hy. unfold not_later in *. by rewrite !Hd.
Qed.

(** ** The invariant of the store *)

Lemma store_inv_new (h : Heap) : store_inv h ArticleStore.NewArticleStore.
Proof.
  split; [split|..]; simpl.
  - constructor.
  - intros p Hp. by apply elem_of_nil in Hp.
  - intros k p Hk. by rewrite lookup_empty in Hk.
  - intros p Hp. by apply elem_of_nil in Hp.
  - constructor.
Qed.

Lemma store_inv_Reset (h : Heap) (as_ : ArticleStore.t) :
  store_inv h (ArticleStore.Reset as_).
Proof.
  split; [split|..]; simpl.
  - constructor.
  - intros p Hp. by apply elem_of_nil in Hp.
  - intros k p Hk. by rewrite lookup_empty in Hk.
  - intros p Hp. by apply elem_of_nil in Hp.
  - constructor.
Qed.

(** An article of the sequence is found by the lookup of [Create]. *)
Lemma stored_is_indexed (h : Heap) (as_ : ArticleStore.t) (p : ptr) :
  store_inv h as_ → p ∈ ArticleStore.a as_ →
  ArticleStore.m as_ !! article_id h as_ p = Some p.
Proof.
  intros [Hb Hid _] Hp. rewrite <- (Hid p Hp). by apply (bij_indexed _ _ Hb).
Qed.

Lemma store_inv_Create (h : Heap) (as_ : ArticleStore.t)
    (article : option ptr) :
  store_inv h as_ →
  store_inv (ArticleStore.Create h as_ article).1.1
            (ArticleStore.Create h as_ article).1.2.
Proof.
  intros Hinv. destruct article as [p|]; [|done].
  destruct (ArticleStore.m as_ !! article_id h as_ p) as [q|] eqn:Hm.
  { unfold ArticleStore.Create. fold (article_id h as_ p). by rewrite Hm. }
  assert (Hfresh : p ∉ ArticleStore.a as_).
  { intros Hp. pose proof (stored_is_indexed h as_ p Hinv Hp). congruence. }
  destruct (Create_fresh h as_ p Hm) as (l1 & l2 & Hl & Hplaced & ->).
  simpl. set (gid := article_id h as_ p) in *.
  set (h' := <[p := Article.set_ID gid (h p)]> h).
  assert (Hp' : Article.ID (h' p) = gid).
  { unfold h'. by rewrite fn_lookup_insert. }
  assert (Hq' : ∀ q, q ∈ ArticleStore.a as_ → h' q = h q).
  { intros q Hq. unfold h'. apply fn_lookup_insert_ne. congruence. }
  destruct Hinv as [[Hnd Hidx Hmem] Hid Hsorted].
  assert (Hne : ∀ q, q ∈ ArticleStore.a as_ → Article.ID (h q) ≠ gid).
  { intros q Hq Heq. specialize (Hidx q Hq). congruence. }
  assert (Hin : ∀ q, q ∈ l1 ++ p :: l2 ↔ q = p ∨ q ∈ ArticleStore.a as_).
  { intros q. rewrite Hl, !elem_of_app, elem_of_cons. tauto. }
  split; [split|..]; simpl.
  - rewrite <- Permutation_middle. apply NoDup_cons. by rewrite <- Hl.
  - intros q Hq. apply Hin in Hq as [->|Hq].
    + rewrite Hp'. apply lookup_insert_eq.
    + rewrite (Hq' q Hq), lookup_insert_ne by (apply not_eq_sym; auto). auto.
  - intros k q Hk. destruct (decide (gid = k)) as [<-|Hk'].
    + rewrite lookup_insert_eq in Hk. injection Hk as <-.
      split; [|done]. apply Hin. by left.
    + rewrite lookup_insert_ne in Hk by done.
      destruct (Hmem k q Hk) as [Hq Hidq].
      split; [apply Hin; by right|]. by rewrite (Hq' q Hq).
  - intros q Hq. unfold article_id; simpl. unfold h' at 2.
    rewrite GUID_set_ID. fold (article_id h as_ q).
    apply Hin in Hq as [->|Hq]; [done|]. rewrite (Hq' q Hq). auto.
  - apply (chronological_ext h); [intros q; apply date_set_ID|].
    apply chronological_insert; [by rewrite <- Hl|done].
Qed.

Lemma reachable_inv (h : Heap) (as_ : ArticleStore.t) :
  reachable h as_ → store_inv h as_.
Proof.
  induction 1; auto using store_inv_new, store_inv_Create, store_inv_Reset.
Qed.

(** ** [List]: the filters and the page *)

Lemma hasCategory_Exists (categories cs : list string) :
  ArticleStore.hasCategory (list_to_set categories) cs = true
  ↔ Exists (λ c, c ∈ categories) cs.
Proof.
  induction cs as [|c cs IH]; simpl.
  - split; [done|]. intros H. by apply Exists_nil in H.
  - rewrite Exists_cons. case_bool_decide as Hc.
    + rewrite elem_of_list_to_set in Hc. tauto.
    + rewrite elem_of_list_to_set in Hc. rewrite IH. tauto.
Qed.

Lemma size_list_to_set_pos (categories : list string) :
  (0 < size (list_to_set categories : gset string))%nat ↔ categories ≠ [].
Proof.
  destruct categories as [|c cs].
  - rewrite list_to_set_nil, size_empty. split; [lia|done].
  - split; [done|]. intros _.
    assert (size (list_to_set (c :: cs) : gset string) ≠ 0%nat); [|lia].
    rewrite size_empty_iff. intros He.
    assert (c ∈ (list_to_set (c :: cs) : gset string)) as Hc
      by (apply elem_of_list_to_set; left).
    rewrite He in Hc. by apply not_elem_of_empty in Hc.
Qed.

Lemma selected_included (h : Heap) (categories : list string)
    (feed : string) (p : ptr) :
  selected h (list_to_set categories) feed p = true
  ↔ included h categories feed p.
Proof.
  unfold selected, included.
  rewrite ?andb_true_iff, ?negb_true_iff, ?andb_false_iff, ?negb_false_iff,
    ?negb_true_iff, ?bool_decide_eq_false, ?bool_decide_eq_true.
  rewrite size_list_to_set_pos, hasCategory_Exists.
  destruct (decide (categories = [])) as [Hc|Hc];
    destruct (Article.Categories (h p)) as [|c cs] eqn:Ecs; simpl.
  - tauto.
  - tauto.
  - rewrite Exists_nil. tauto.
  - split; [|intros [[?|?] ?]; try done; repeat split; auto].
    intros [[_ [?|?]] ?]; [done|tauto].
Qed.

(** One turn of the loop of [List]. *)
Lemma List_loop_cons (h : Heap) (cat : gset string) (pageSize : Z)
    (feed : string) (current : ptr) (rest : list ptr) (found : Z)
    (res : list ptr) :
  ArticleStore.List_loop h cat pageSize feed (current :: rest) found res
  = if selected h cat feed current
    then if found + 1 =? pageSize then res ++ [current]
         else ArticleStore.List_loop h cat pageSize feed rest (found + 1)
                (res ++ [current])
    else ArticleStore.List_loop h cat pageSize feed rest found res.
Proof.
  unfold selected. simpl.
  destruct (bool_decide (0 < size cat)%nat);
    destruct (bool_decide (length (Article.Categories (h current)) = 0%nat));
    destruct (ArticleStore.hasCategory cat (Article.Categories (h current)));
    destruct (bool_decide (feed = EmptyString));
    destruct (bool_decide (Article.FeedID (h current) = feed));
    reflexivity.
Qed.

(** The loop appends to [res] the selected articles of [rest], and stops
    when the count reaches a positive [pageSize]. *)
Lemma List_loop_spec (h : Heap) (categories : list string) (pageSize : Z)
    (feed : string) (rest : list ptr) (found : Z) (res : list ptr) :
  0 ≤ found →
  ArticleStore.List_loop h (list_to_set categories) pageSize feed rest
    found res
  = res ++ (if found <? pageSize
            then take (Z.to_nat (pageSize - found))
                   (filter (included h categories feed) rest)
            else filter (included h categories feed) rest).
Proof.
  revert found res. induction rest as [|current rest IH]; intros found res Hf.
  - simpl. rewrite filter_nil, take_nil.
    destruct (found <? pageSize); by rewrite app_nil_r.
  - rewrite List_loop_cons, filter_cons.
    pose proof (selected_included h categories feed current) as Hsel.
    destruct (selected h (list_to_set categories) feed current).
    + rewrite decide_True by (by apply Hsel).
      destruct (found + 1 =? pageSize) eqn:Heq.
      * apply Z.eqb_eq in Heq.
        assert ((found <? pageSize) = true) as -> by lia.
        replace (Z.to_nat (pageSize - found)) with 1%nat by lia.
        simpl. by rewrite take_0.
      * apply Z.eqb_neq in Heq. rewrite IH by lia. rewrite <- app_assoc.
        simpl. destruct (found <? pageSize) eqn:Hlt.
        -- assert ((found + 1 <? pageSize) = true) as -> by lia.
           replace (Z.to_nat (pageSize - found))
             with (S (Z.to_nat (pageSize - (found + 1)))) by lia.
           reflexivity.
        -- assert ((found + 1 <? pageSize) = false) as -> by lia.
           reflexivity.
    + rewrite decide_False by (intros Hin; apply Hsel in Hin; done).
      by apply IH.
Qed.

(** [List] as a whole: an unknown cursor is an error, and otherwise the result
    is a page of the selected articles after the cursor. *)
Lemma List_spec (h : Heap) (as_ : ArticleStore.t) (cursor : string)
    (pageSize : Z) (feed : string) (categories : list string) :
  ArticleStore.List h as_ cursor pageSize feed categories
  = if (ArticleStore.findArticleCursorIndex h as_ cursor).2
    then (page pageSize
            (filter (included h categories feed)
               (drop (ArticleStore.findArticleCursorIndex h as_ cursor).1
                  (ArticleStore.a as_))),
          None)
    else ([], Some "could not find provided cursor").
Proof.
  unfold ArticleStore.List.
  destruct (ArticleStore.findArticleCursorIndex h as_ cursor) as [i [|]];
    simpl; [|reflexivity].
  rewrite List_loop_spec by lia. unfold page. simpl.
  rewrite Z.sub_0_r. reflexivity.
Qed.

(** ** The cursor *)

Lemma findArticleCursorIndex_loop_None (h : Heap) (cursor : string)
    (l : list ptr) (i : nat) :
  (∀ p, p ∈ l → Article.ID (h p) ≠ cursor) →
  ArticleStore.findArticleCursorIndex_loop h cursor l i = (0%nat, false).
Proof.
  revert i. induction l as [|q l IH]; intros i Hl; simpl; [done|].
  rewrite bool_decide_eq_false_2 by (apply Hl; left).
  apply IH. intros p Hp. apply Hl. by right.
Qed.

Lemma findArticleCursorIndex_loop_Some (h : Heap) (cursor : string)
    (l : list ptr) (i j : nat) (p : ptr) :
  l !! j = Some p → Article.ID (h p) = cursor →
  (∀ k q, (k < j)%nat → l !! k = Some q → Article.ID (h q) ≠ cursor) →
  ArticleStore.findArticleCursorIndex_loop h cursor l i
  = (S (i + j), true).
Proof.
  revert i j. induction l as [|q l IH]; intros i j Hj Hp Hbefore; [done|].
  simpl. destruct j as [|j].
  - simpl in Hj. injection Hj as ->.
    rewrite bool_decide_eq_true_2 by done. by rewrite Nat.add_0_r.
  - rewrite bool_decide_eq_false_2 by (apply (Hbefore 0%nat); [lia|done]).
    rewrite (IH (S i) j); [f_equal; lia|done|done|].
    intros k q' Hk Hq'. apply (Hbefore (S k)); [lia|done].
Qed.

Lemma findArticleCursorIndex_loop_found (h : Heap) (cursor : string)
    (l : list ptr) (i : nat) :
  (∃ p, p ∈ l ∧ Article.ID (h p) = cursor) →
  ∃ j, ArticleStore.findArticleCursorIndex_loop h cursor l i = (j, true).
Proof.
  revert i. induction l as [|q l IH]; intros i (p & Hp & Hid).
  - by apply elem_of_nil in Hp.
  - simpl. case_bool_decide as Hq; [by eexists|].
    apply IH. exists p. split; [|done].
    apply elem_of_cons in Hp as [->|Hp]; done.
Qed.

(** ** Identifiers are never empty *)

Lemma append_String_nonempty (s1 s2 : string) (c : ascii) :
  (s1 ++ String c s2)%string ≠ EmptyString.
Proof. destruct s1; discriminate. Qed.

Lemma generateID_nonempty (space : uuid.UUID) (key : string) :
  store.generateID space key ≠ EmptyString.
Proof.
  unfold store.generateID, uuid.String. cbv zeta.
  apply append_String_nonempty.
Qed.

(** ** Pagination *)

Lemma filter_included_all (h : Heap) (l : list ptr) :
  filter (included h [] EmptyString) l = l.
Proof.
  induction l as [|p l IH]; [done|].
  rewrite filter_cons, decide_True, IH; [done|].
  split; by left.
Qed.

Lemma stored_id_nonempty (h : Heap) (as_ : ArticleStore.t) (p : ptr) :
  store_inv h as_ → p ∈ ArticleStore.a as_ →
  Article.ID (h p) ≠ EmptyString.
Proof.
  intros [_ Hid _] Hp. rewrite (Hid p Hp). apply generateID_nonempty.
Qed.

(** The identifier of the article at position [j] resolves to [j + 1]. *)
Lemma cursor_of_stored (h : Heap) (as_ : ArticleStore.t) (j : nat) (p : ptr) :
  store_inv h as_ → ArticleStore.a as_ !! j = Some p →
  ArticleStore.findArticleCursorIndex h as_ (Article.ID (h p)) = (S j, true).
Proof.
  intros Hinv Hj.
  assert (Hp : p ∈ ArticleStore.a as_) by (by eapply list_elem_of_lookup_2).
  unfold ArticleStore.findArticleCursorIndex.
  rewrite bool_decide_eq_false_2 by (by eapply stored_id_nonempty).
  rewrite (findArticleCursorIndex_loop_Some h _ _ 0 j p); [done..|].
  intros k q Hk Hq Heq. destruct Hinv as [[Hnd Hidx _] _ _].
  assert (Hq' : q ∈ ArticleStore.a as_) by (by eapply list_elem_of_lookup_2).
  pose proof (Hidx p Hp) as H1. pose proof (Hidx q Hq') as H2.
  rewrite Heq, H1 in H2. injection H2 as ->.
  pose proof (NoDup_lookup _ _ _ _ Hnd Hq Hj). lia.
Qed.

Lemma take_drop_length (l : list ptr) (n : nat) :
  take n l ++ drop (length (take n l)) l = l.
Proof.
  destruct (decide (n ≤ length l)%nat) as [Hle|Hgt].
  - rewrite length_take_le by done. apply take_drop.
  - rewrite take_ge by lia. rewrite drop_all. apply app_nil_r.
Qed.

Lemma paginate_from (h : Heap) (as_ : ArticleStore.t) (pageSize : Z)
    (fuel i : nat) (cursor : string) :
  store_inv h as_ → 1 ≤ pageSize →
  ArticleStore.findArticleCursorIndex h as_ cursor = (i, true) →
  (length (ArticleStore.a as_) - i < fuel)%nat →
  paginate fuel h as_ pageSize cursor = Some (drop i (ArticleStore.a as_)).
Proof.
  intros Hinv HP. revert i cursor.
  induction fuel as [|fuel IH]; intros i cursor Hfind Hfuel; [lia|].
  simpl. rewrite List_spec, Hfind. simpl.
  rewrite filter_included_all. unfold page.
  assert ((0 <? pageSize) = true) as -> by lia.
  set (l := drop i (ArticleStore.a as_)).
  set (n := Z.to_nat pageSize).
  destruct (last (take n l)) as [q|] eqn:Hlast.
  - rewrite last_lookup in Hlast.
    assert (Hk : (0 < length (take n l))%nat).
    { destruct (take n l); [done|simpl; lia]. }
    assert (Hq : ArticleStore.a as_ !! (i + pred (length (take n l)))%nat
                 = Some q).
    { rewrite <- lookup_drop. fold l.
      rewrite <- Hlast. symmetry. apply lookup_take_lt.
      rewrite length_take. lia. }
    pose proof (cursor_of_stored h as_ _ q Hinv Hq) as Hnext.
    assert (Hlen : (length (take n l) ≤ length l)%nat)
      by (rewrite length_take; lia).
    unfold l in Hlen at 2. rewrite length_drop in Hlen.
    rewrite (IH _ _ Hnext) by lia. simpl. f_equal.
    replace (S (i + pred (length (take n l))))
      with (i + length (take n l))%nat by lia.
    rewrite <- drop_drop. fold l. apply take_drop_length.
  - apply last_None in Hlast. f_equal.
    destruct l as [|x l']; [done|].
    assert (n = S (pred n)) as Hn by lia. rewrite Hn in Hlast. done.
Qed.

(** ** The two outcomes of [Create] *)

Lemma Create_cases (h : Heap) (as_ : ArticleStore.t) (p : ptr) :
  (∃ q, ArticleStore.m as_ !! article_id h as_ p = Some q
        ∧ ArticleStore.Create h as_ (Some p) = (h, as_, (Some q, None)))
  ∨ (ArticleStore.m as_ !! article_id h as_ p = None
     ∧ ∃ l1 l2,
         ArticleStore.a as_ = l1 ++ l2
         ∧ placed h p l1 l2
         ∧ ArticleStore.Create h as_ (Some p)
           = (<[p := Article.set_ID (article_id h as_ p) (h p)]> h,
              {| ArticleStore.a := l1 ++ p :: l2;
                 ArticleStore.m :=
                   <[article_id h as_ p := p]> (ArticleStore.m as_);
                 ArticleStore.uuidNamespace :=
                   ArticleStore.uuidNamespace as_ |},
              (Some p, None))).
Proof.
  destruct (ArticleStore.m as_ !! article_id h as_ p) as [q|] eqn:Hm.
  - left. exists q. split; [done|].
    unfold ArticleStore.Create. fold (article_id h as_ p). by rewrite Hm.
  - right. split; [done|]. by apply Create_fresh.
Qed.

(** What [Create] leaves alone, and what it adds to the index. *)
Lemma Create_effects (h : Heap) (as_ : ArticleStore.t) (p : ptr) :
  let r := ArticleStore.Create h as_ (Some p) in
  (∀ q, date r.1.1 q = date h q)
  ∧ (∀ q, article_id r.1.1 r.1.2 q = article_id h as_ q)
  ∧ (∀ k q, ArticleStore.m as_ !! k = Some q →
            ArticleStore.m r.1.2 !! k = Some q)
  ∧ is_Some (ArticleStore.m r.1.2 !! article_id h as_ p).
Proof.
  destruct (Create_cases h as_ p)
    as [(q & Hm & Heq)|(Hm & l1 & l2 & Hl & _ & Heq)];
    rewrite Heq; simpl.
  - repeat split; try done; by exists q.
  - split; [|split; [|split]].
    + intros q. apply date_set_ID.
    + intros q. unfold article_id at 1. simpl. by rewrite GUID_set_ID.
    + intros k q Hk. rewrite lookup_insert_ne; [done|]. congruence.
    + rewrite lookup_insert_eq. by eexists.
Qed.

Lemma CreateAll_reachable (h : Heap) (as_ : ArticleStore.t)
    (articles : list ptr) :
  reachable h as_ →
  reachable (CreateAll h as_ articles).1 (CreateAll h as_ articles).2.
Proof.
  revert h as_. induction articles as [|p ps IH]; intros h as_ Hr; [done|].
  simpl. pose proof (reachable_Create h as_ (Some p) Hr) as Hr'.
  destruct (ArticleStore.Create h as_ (Some p)) as [[h' as'] r].
  by apply IH.
Qed.

Lemma CreateAll_effects (h : Heap) (as_ : ArticleStore.t)
    (articles : list ptr) :
  let r := CreateAll h as_ articles in
  (∀ q, date r.1 q = date h q)
  ∧ (∀ q, article_id r.1 r.2 q = article_id h as_ q)
  ∧ (∀ k q, ArticleStore.m as_ !! k = Some q →
            ArticleStore.m r.2 !! k = Some q)
  ∧ (∀ p, p ∈ articles →
          is_Some (ArticleStore.m r.2 !! article_id h as_ p)).
Proof.
  revert h as_. induction articles as [|p ps IH]; intros h as_; simpl.
  - repeat split; try done. intros p Hp. by apply elem_of_nil in Hp.
  - pose proof (Create_effects h as_ p) as (Hd & Hid & Hmono & Hnew).
    destruct (ArticleStore.Create h as_ (Some p)) as [[h' as'] r].
    simpl in *. destruct (IH h' as') as (Hd' & Hid' & Hmono' & Hnew').
    split; [|split; [|split]].
    + intros q. by rewrite Hd', Hd.
    + intros q. by rewrite Hid', Hid.
    + auto.
    + intros q Hq. apply elem_of_cons in Hq as [->|Hq].
      * destruct Hnew as [x Hx]. exists x. by apply Hmono'.
      * rewrite <- Hid. by apply Hnew'.
Qed.

(** Articles with pairwise distinct fresh identifiers are all stored. *)
Lemma CreateAll_Permutation (h : Heap) (as_ : ArticleStore.t)
    (articles : list ptr) :
  NoDup (article_id h as_ <$> articles) →
  (∀ p, p ∈ articles → ArticleStore.m as_ !! article_id h as_ p = None) →
  ArticleStore.a (CreateAll h as_ articles).2
  ≡ₚ articles ++ ArticleStore.a as_.
Proof.
  revert h as_. induction articles as [|p ps IH]; intros h as_ Hnd Hnew;
    [done|].
  simpl. rewrite fmap_cons in Hnd. apply NoDup_cons in Hnd as [Hp Hnd].
  pose proof (Create_effects h as_ p) as (_ & Hid & _ & _).
  destruct (Create_cases h as_ p)
    as [(q & Hm & _)|(Hm & l1 & l2 & Hl & _ & Heq)].
  { rewrite Hnew in Hm by left. done. }
  rewrite Heq in Hid |- *. simpl in Hid.
  rewrite IH; simpl.
  - rewrite Hl. rewrite <- Permutation_middle.
    by rewrite (Permutation_middle ps).
  - erewrite list_fmap_ext; [exact Hnd|]. intros i x Hx. apply Hid.
  - intros q Hq. rewrite Hid. rewrite lookup_insert_ne.
    + apply Hnew. by right.
    + intros Heq'. apply Hp. rewrite Heq'. by apply list_elem_of_fmap_2.
Qed.

(** ** Identity generation against the identifiers the tests expect *)

Example generateID_test_guid :
  store.generateID (uuid.MustParse store.uuidNamespace) "test_guid"
  = "dbefb2be-dfe0-5513-b23a-cc04c551221e".
Proof. vm_compute. reflexivity. Qed.

Example generateID_second :
  store.generateID (uuid.MustParse store.uuidNamespace) "second"
  = "461b4f1d-0d71-5a3c-96e8-a2654b90d1ea".
Proof. vm_compute. reflexivity. Qed.

Example generateID_fourth :
  store.generateID (uuid.MustParse store.uuidNamespace) "fourth"
  = "1d852aa8-2ce9-58fa-b8e5-46c3cdd4a098".
Proof. vm_compute. reflexivity. Qed.

Example generateID_fifth :
  store.generateID (uuid.MustParse store.uuidNamespace) "fifth"
  = "a651761e-8285-5539-81de-db51820bda65".
Proof. vm_compute. reflexivity. Qed.

(** ** The properties of the specification *)

(** C1. After any sequence of [Create] calls on a fresh store, [List] with
    the empty cursor, no feed filter, no category filter and page size 0
    returns the whole stored sequence, and that sequence is in non-descending
    order of publish date. [Create] changes no publish date; every article
    given to [Create] is represented in the result by an article carrying its
    identifier; and when the generated identifiers are pairwise distinct the
    result holds exactly the articles given. *)
Theorem List_after_Create_chronological (h0 : Heap) (articles : list ptr) :
  let '(h, as_) := CreateAll h0 ArticleStore.NewArticleStore articles in
  ArticleStore.List h as_ EmptyString 0 EmptyString []
  = (ArticleStore.a as_, None)
  ∧ chronological h (ArticleStore.a as_)
  ∧ (∀ p, date h p = date h0 p)
  ∧ (∀ p, p ∈ articles →
          ∃ q, q ∈ ArticleStore.a as_
               ∧ Article.ID (h q)
                 = article_id h0 ArticleStore.NewArticleStore p)
  ∧ (NoDup (article_id h0 ArticleStore.NewArticleStore <$> articles) →
     ArticleStore.a as_ ≡ₚ articles).
Proof.
  pose proof (CreateAll_reachable h0 _ articles (reachable_new h0)) as Hr.
  pose proof (CreateAll_effects h0 ArticleStore.NewArticleStore articles)
    as (Hd & _ & _ & Hnew).
  pose proof (CreateAll_Permutation h0 ArticleStore.NewArticleStore articles)
    as Hperm.
  destruct (CreateAll h0 ArticleStore.NewArticleStore articles) as [h as_].
  simpl in *. apply reachable_inv in Hr as [[_ _ Hmem] _ Hsorted].
  split; [|split; [|split; [|split]]]; try done.
  - rewrite List_spec. simpl. by rewrite filter_included_all.
  - intros p Hp. destruct (Hnew p Hp) as [q Hq]. exists q. by apply Hmem.
  - intros Hnd. rewrite Hperm; [by rewrite app_nil_r|done|].
    intros p _. apply lookup_empty.
Qed.

Lemma List_after_Create_chronological_witness :
  let '(h, as_) :=
    CreateAll Examples.three ArticleStore.NewArticleStore [0; 1; 2]%nat in
  ArticleStore.List h as_ EmptyString 0 EmptyString []
  = (ArticleStore.a as_, None)
  ∧ chronological h (ArticleStore.a as_)
  ∧ ArticleStore.a as_ ≡ₚ [0; 1; 2]%nat.
Proof.
  pose proof (List_after_Create_chronological Examples.three [0; 1; 2]%nat)
    as H.
  destruct (CreateAll Examples.three ArticleStore.NewArticleStore
              [0; 1; 2]%nat) as [h as_].
  destruct H as (HList & Hsorted & _ & _ & Hperm).
  split; [exact HList|]. split; [exact Hsorted|].
  apply Hperm. apply (bool_decide_unpack _). vm_compute. exact I.
Defined.

(** The scenario of the specification: timestamps 1, 3, 2 for the GUIDs
    first, third, second; [List] with the empty cursor, page size 10 and no
    filter gives first, second, third. *)
Example List_first_second_third :
  let '(h, as_) :=
    CreateAll Examples.three ArticleStore.NewArticleStore [0; 1; 2]%nat in
  (λ r, (map (λ p, Article.GUID (h p)) r.1, r.2))
    (ArticleStore.List h as_ EmptyString 10 EmptyString [])
  = (["first"; "second"; "third"], None).
Proof. vm_compute. reflexivity. Qed.

(** C2. In every reachable state, for every page size of at least one, the
    client that starts from the empty cursor and then passes the identifier
    of the last article of each page reads, given fuel for one call more than
    there are articles, exactly the stored sequence: every article once, in
    the order of the store, which is chronological. *)
Theorem pagination_complete (h : Heap) (as_ : ArticleStore.t)
    (pageSize : Z) (fuel : nat) :
  reachable h as_ → 1 ≤ pageSize →
  (length (ArticleStore.a as_) < fuel)%nat →
  paginate fuel h as_ pageSize EmptyString = Some (ArticleStore.a as_)
  ∧ NoDup (ArticleStore.a as_)
  ∧ chronological h (ArticleStore.a as_).
Proof.
  intros Hr HP Hfuel. apply reachable_inv in Hr as Hinv.
  split; [|split].
  - rewrite (paginate_from h as_ pageSize fuel 0 EmptyString); try done.
    lia.
  - apply Hinv.
  - apply Hinv.
Qed.

Lemma pagination_complete_witness :
  paginate 6 Examples.five_store.1 Examples.five_store.2 2 EmptyString
  = Some (ArticleStore.a Examples.five_store.2)
  ∧ NoDup (ArticleStore.a Examples.five_store.2)
  ∧ chronological Examples.five_store.1
      (ArticleStore.a Examples.five_store.2).
Proof.
  apply (pagination_complete Examples.five_store.1 Examples.five_store.2 2 6).
  - apply CreateAll_reachable, reachable_new.
  - lia.
  - vm_compute. lia.
Defined.

(** The pages of the tests' store, two articles at a time. *)
Example paginate_five :
  paginate 6 Examples.five_store.1 Examples.five_store.2 2 EmptyString
  = Some [0; 1; 2; 3; 4]%nat.
Proof. vm_compute. reflexivity. Qed.

(** C3. For every store state and every two articles with the same GUID,
    [Create] of the first followed by [Create] of the second: both calls
    return the same article with no error, that article is the one indexed
    under the identifier after the first call, the second call changes
    neither the store nor the heap (so nothing of the second article is kept),
    and the sequence and the index grow by at most one over the two calls. *)
Theorem Create_idempotent (h : Heap) (as_ : ArticleStore.t) (a1 a2 : ptr) :
  Article.GUID (h a1) = Article.GUID (h a2) →
  let '(h1, as1, r1) := ArticleStore.Create h as_ (Some a1) in
  let '(h2, as2, r2) := ArticleStore.Create h1 as1 (Some a2) in
  (∃ q, r1 = (Some q, None) ∧ r2 = (Some q, None)
        ∧ ArticleStore.m as1 !! article_id h as_ a1 = Some q)
  ∧ as2 = as1 ∧ h2 = h1
  ∧ (length (ArticleStore.a as2) ≤ length (ArticleStore.a as_) + 1)%nat
  ∧ (size (ArticleStore.m as2) ≤ size (ArticleStore.m as_) + 1)%nat.
Proof.
  intros HG.
  assert (Hsame : article_id h as_ a2 = article_id h as_ a1)
    by (unfold article_id; by rewrite HG).
  destruct (Create_cases h as_ a1)
    as [(q & Hm & Heq)|(Hm & l1 & l2 & Hl & _ & Heq)]; rewrite Heq.
  - destruct (Create_cases h as_ a2) as [(q' & Hm' & Heq')|(Hm' & _)];
      rewrite Hsame in Hm'; [|congruence].
    rewrite Heq'. assert (q' = q) as -> by congruence.
    repeat split; try lia. by exists q.
  - set (h1 := <[a1 := _]> h). set (as1 := ArticleStore.Build_t _ _ _).
    assert (Hid : article_id h1 as1 a2 = article_id h as_ a1).
    { rewrite <- Hsame. unfold article_id, h1. simpl. by rewrite GUID_set_ID. }
    destruct (Create_cases h1 as1 a2) as [(q' & Hm' & Heq')|(Hm' & _)];
      rewrite Hid in Hm'; simpl in Hm'; rewrite lookup_insert_eq in Hm';
      [|done].
    rewrite Heq'. injection Hm' as <-.
    split; [|split; [|split; [|split]]]; try done.
    + exists a1. repeat split. simpl. apply lookup_insert_eq.
    + simpl. rewrite Hl, !length_app. simpl. lia.
    + simpl. rewrite map_size_insert_None by done. lia.
Qed.

Lemma Create_idempotent_witness :
  let '(h1, as1, r1) :=
    ArticleStore.Create Examples.twice ArticleStore.NewArticleStore
      (Some 0%nat) in
  let '(h2, as2, r2) := ArticleStore.Create h1 as1 (Some 1%nat) in
  (∃ q, r1 = (Some q, None) ∧ r2 = (Some q, None)
        ∧ ArticleStore.m as1
            !! article_id Examples.twice ArticleStore.NewArticleStore 0%nat
          = Some q)
  ∧ as2 = as1 ∧ h2 = h1
  ∧ (length (ArticleStore.a as2)
     ≤ length (ArticleStore.a ArticleStore.NewArticleStore) + 1)%nat
  ∧ (size (ArticleStore.m as2)
     ≤ size (ArticleStore.m ArticleStore.NewArticleStore) + 1)%nat.
Proof.
  apply (Create_idempotent Examples.twice ArticleStore.NewArticleStore 0 1).
  reflexivity.
Defined.

(** The test of the repository: the second article with GUID test_guid is
    not stored, and its preset identifier and fields stay as they were. *)
Example Create_twice :
  let '(h1, as1, r1) :=
    ArticleStore.Create Examples.twice ArticleStore.NewArticleStore
      (Some 0%nat) in
  let '(h2, as2, r2) := ArticleStore.Create h1 as1 (Some 1%nat) in
  r1 = (Some 0%nat, None) ∧ r2 = (Some 0%nat, None)
  ∧ ArticleStore.a as2 = [0%nat]
  ∧ Article.ID (h2 0%nat) = "dbefb2be-dfe0-5513-b23a-cc04c551221e"
  ∧ Article.ID (h2 1%nat) = "preset".
Proof. vm_compute. repeat split. Qed.

(** C4, as the code has it. In a reachable state, [Create] of an article
    whose identifier is new puts it after every stored article that is
    strictly earlier and before every stored article that is strictly later.
    It goes to the very end exactly when the last stored article is not later
    than it (or the store is empty); otherwise every article before it is
    strictly earlier, so it stands before the stored articles of the same
    publish date. *)
Theorem Create_position (h : Heap) (as_ : ArticleStore.t) (p : ptr) :
  reachable h as_ →
  ArticleStore.m as_ !! article_id h as_ p = None →
  ∃ l1 l2,
    ArticleStore.a as_ = l1 ++ l2
    ∧ ArticleStore.a (ArticleStore.Create h as_ (Some p)).1.2
      = l1 ++ p :: l2
    ∧ (∀ x, x ∈ l1 → not_later h x p)
    ∧ (∀ y, y ∈ l2 → not_later h p y)
    ∧ (l2 = [] ↔ ∀ z, last (ArticleStore.a as_) = Some z → not_later h z p)
    ∧ (l2 ≠ [] → ∀ x, x ∈ l1 → earlier h x p).
Proof.
  intros Hr Hm. apply reachable_inv in Hr as [_ _ Hsorted].
  destruct (Create_fresh h as_ p Hm) as (l1 & l2 & Hl & Hplaced & Heq).
  rewrite Hl in Hsorted.
  destruct (placed_bounds h p l1 l2 Hsorted Hplaced) as (Hb1 & Hb2 & Hb3).
  exists l1, l2. rewrite Heq. simpl.
  split; [done|]. split; [done|]. split; [done|]. split; [done|].
  split; [|done]. split.
  - intros -> z Hz. rewrite Hl, app_nil_r in Hz.
    apply Hb1. by eapply last_Some_elem_of.
  - intros Hlast. destruct Hplaced as [[-> _]|((y & Hy & Hyp) & _)]; [done|].
    exfalso. specialize (Hlast y). rewrite Hl, last_app, Hy in Hlast.
    specialize (Hlast eq_refl). unfold not_later, earlier in *. congruence.
Qed.

Lemma Create_position_witness :
  ∃ l1 l2,
    ArticleStore.a Examples.ties_store.2 = l1 ++ l2
    ∧ ArticleStore.a
        (ArticleStore.Create Examples.ties_store.1 Examples.ties_store.2
           (Some 2%nat)).1.2
      = l1 ++ 2%nat :: l2
    ∧ (∀ x, x ∈ l1 → not_later Examples.ties_store.1 x 2%nat)
    ∧ (∀ y, y ∈ l2 → not_later Examples.ties_store.1 2%nat y)
    ∧ (l2 = [] ↔
       ∀ z, last (ArticleStore.a Examples.ties_store.2) = Some z →
            not_later Examples.ties_store.1 z 2%nat)
    ∧ (l2 ≠ [] → ∀ x, x ∈ l1 → earlier Examples.ties_store.1 x 2%nat).
Proof.
  apply (Create_position Examples.ties_store.1 Examples.ties_store.2 2).
  - apply CreateAll_reachable, reachable_new.
  - vm_compute. reflexivity.
Defined.

(** C4 as stated fails: after the articles 0 (instant 1) and 1 (instant 2),
    the article 2 (instant 1) is stored. Article 0 is not later than
    article 2, and yet article 2 goes in front of it. *)
Lemma Create_tie_goes_first :
  let '(h, as_) := Examples.ties_store in
  ArticleStore.a as_ = [0; 1]%nat
  ∧ date h 0%nat = date h 2%nat
  ∧ not_later h 0%nat 2%nat
  ∧ ArticleStore.a (ArticleStore.Create h as_ (Some 2%nat)).1.2
    = [2; 0; 1]%nat.
Proof. vm_compute. repeat split. Qed.

(** C5, as the code has it. Both stores are built with the one namespace of
    [store.go], so on fresh stores an article and a feed with the same key
    receive the same identifier. *)
Theorem shared_namespace (ha : Heap) (hf : FeedHeap) (p f : ptr) :
  Article.GUID (ha p) = Feed.Address (hf f) →
  let '(ha', _, ra) :=
    ArticleStore.Create ha ArticleStore.NewArticleStore (Some p) in
  let '(hf', _, rf) := FeedStore.Create hf FeedStore.NewFeedStore (Some f) in
  ra = (Some p, None) ∧ rf = (Some f, None)
  ∧ Article.ID (ha' p) = Feed.ID (hf' f).
Proof.
  intros Hkey.
  destruct (Create_fresh ha ArticleStore.NewArticleStore p)
    as (l1 & l2 & _ & _ & ->); [apply lookup_empty|].
  unfold FeedStore.Create. simpl. rewrite lookup_empty.
  rewrite !fn_lookup_insert. simpl. unfold article_id. simpl.
  by rewrite Hkey.
Qed.

Lemma shared_namespace_witness :
  let '(ha', _, ra) :=
    ArticleStore.Create Examples.twice ArticleStore.NewArticleStore
      (Some 0%nat) in
  let '(hf', _, rf) :=
    FeedStore.Create Examples.feeds FeedStore.NewFeedStore (Some 0%nat) in
  ra = (Some 0%nat, None) ∧ rf = (Some 0%nat, None)
  ∧ Article.ID (ha' 0%nat) = Feed.ID (hf' 0%nat).
Proof.
  apply (shared_namespace Examples.twice Examples.feeds 0 0). reflexivity.
Defined.

(** C5 as stated fails: for the key test_guid the article and the feed both
    receive the identifier that the two test files expect. *)
Lemma same_key_same_identifier :
  Article.ID
    ((ArticleStore.Create Examples.twice ArticleStore.NewArticleStore
        (Some 0%nat)).1.1 0%nat)
  = "dbefb2be-dfe0-5513-b23a-cc04c551221e"
  ∧ Feed.ID
      ((FeedStore.Create Examples.feeds FeedStore.NewFeedStore
          (Some 0%nat)).1.1 0%nat)
    = "dbefb2be-dfe0-5513-b23a-cc04c551221e".
Proof. vm_compute. split; reflexivity. Qed.

(** C6. Whenever [List] succeeds, its result is the page of the articles
    after the cursor that pass the filters of the contract. With category
    filters every article returned has a category, one of the requested
    ones; with no category filter only the feed filter selects. *)
Theorem List_category_filter (h : Heap) (as_ : ArticleStore.t)
    (cursor : string) (pageSize : Z) (feed : string)
    (categories : list string) (res : list ptr) :
  ArticleStore.List h as_ cursor pageSize feed categories = (res, None) →
  let rest :=
    drop (ArticleStore.findArticleCursorIndex h as_ cursor).1
      (ArticleStore.a as_) in
  res = page pageSize (filter (included h categories feed) rest)
  ∧ (categories ≠ [] →
     ∀ p, p ∈ res →
          Article.Categories (h p) ≠ []
          ∧ ∃ c, c ∈ Article.Categories (h p) ∧ c ∈ categories)
  ∧ (categories = [] →
     res = page pageSize
             (filter (λ p, feed = EmptyString ∨ Article.FeedID (h p) = feed)
                rest)).
Proof.
  rewrite List_spec.
  destruct (ArticleStore.findArticleCursorIndex h as_ cursor) as [i [|]];
    simpl; [|discriminate].
  intros [= <-]. split; [done|]. split.
  - intros Hne p Hp.
    assert (Hin : p ∈ filter (included h categories feed)
                        (drop i (ArticleStore.a as_))).
    { unfold page in Hp. destruct (0 <? pageSize); [|done].
      by apply (subseteq_take (Z.to_nat pageSize)). }
    apply list_elem_of_filter in Hin as [[[Hc|Hc] _] _]; [done|].
    apply Exists_exists in Hc as (c & Hc1 & Hc2). split; [|by exists c].
    intros Hnil. rewrite Hnil in Hc1. by apply elem_of_nil in Hc1.
  - intros ->. f_equal. apply list_filter_iff. intros p.
    unfold included. tauto.
Qed.

Lemma List_category_filter_witness :
  let rest :=
    drop
      (ArticleStore.findArticleCursorIndex Examples.five_store.1
         Examples.five_store.2 EmptyString).1
      (ArticleStore.a Examples.five_store.2) in
  [0; 1; 4]%nat
  = page 6
      (filter (included Examples.five_store.1 ["cat_4"; "cat_3"] EmptyString)
         rest)
  ∧ (["cat_4"; "cat_3"] ≠ [] →
     ∀ p, p ∈ [0; 1; 4]%nat →
          Article.Categories (Examples.five_store.1 p) ≠ []
          ∧ ∃ c, c ∈ Article.Categories (Examples.five_store.1 p)
                 ∧ c ∈ ["cat_4"; "cat_3"])
  ∧ (["cat_4"; "cat_3"] = [] →
     [0; 1; 4]%nat
     = page 6
         (filter
            (λ p, EmptyString = EmptyString
                  ∨ Article.FeedID (Examples.five_store.1 p) = EmptyString)
            rest)).
Proof.
  apply (List_category_filter Examples.five_store.1 Examples.five_store.2
           EmptyString 6 EmptyString ["cat_4"; "cat_3"] [0; 1; 4]%nat).
  vm_compute. reflexivity.
Defined.

(** The category tests of the repository: one category, two categories, a
    category nobody has, and the feed filter. *)
Example List_filters :
  let '(h, as_) := Examples.five_store in
  ArticleStore.List h as_ EmptyString 6 EmptyString ["cat_1"]
  = ([0; 1; 2]%nat, None)
  ∧ ArticleStore.List h as_ EmptyString 6 EmptyString ["cat_1"; "cat_3"]
    = ([0; 1; 2; 4]%nat, None)
  ∧ ArticleStore.List h as_ EmptyString 6 EmptyString ["cat_invalid"]
    = ([], None)
  ∧ ArticleStore.List h as_ EmptyString 6 "feed_id" []
    = ([0; 1; 3]%nat, None).
Proof. vm_compute. repeat split. Qed.

(** C7. A cursor that is not empty and is the identifier of no article of the
    sequence makes [List] fail with the cursor error and return no article;
    a cursor that is the identifier of an article of the sequence makes
    [List] succeed, whatever is left after it. *)
Theorem List_cursor (h : Heap) (as_ : ArticleStore.t) (cursor : string)
    (pageSize : Z) (feed : string) (categories : list string) :
  (cursor ≠ EmptyString →
   (∀ p, p ∈ ArticleStore.a as_ → Article.ID (h p) ≠ cursor) →
   ArticleStore.List h as_ cursor pageSize feed categories
   = ([], Some "could not find provided cursor"))
  ∧ ((∃ p, p ∈ ArticleStore.a as_ ∧ Article.ID (h p) = cursor) →
     ∃ res,
       ArticleStore.List h as_ cursor pageSize feed categories = (res, None)).
Proof.
  split.
  - intros Hne Hnone. rewrite List_spec.
    unfold ArticleStore.findArticleCursorIndex.
    rewrite bool_decide_eq_false_2 by done.
    by rewrite findArticleCursorIndex_loop_None.
  - intros Hsome. rewrite List_spec.
    unfold ArticleStore.findArticleCursorIndex.
    case_bool_decide; simpl; [by eexists|].
    destruct (findArticleCursorIndex_loop_found h cursor _ 0 Hsome)
      as [j ->].
    simpl. by eexists.
Qed.

Lemma List_cursor_witness :
  ArticleStore.List Examples.five_store.1 Examples.five_store.2
    "invalid_cursor" 2 EmptyString []
  = ([], Some "could not find provided cursor")
  ∧ ∃ res,
      ArticleStore.List Examples.five_store.1 Examples.five_store.2
        "a651761e-8285-5539-81de-db51820bda65" 2 EmptyString []
      = (res, None).
Proof.
  split.
  - apply (List_cursor Examples.five_store.1 Examples.five_store.2
             "invalid_cursor" 2 EmptyString []); [discriminate|].
    intros p Hp. apply list_elem_of_In in Hp. vm_compute in Hp.
    destruct Hp as [<-|[<-|[<-|[<-|[<-|[]]]]]]; vm_compute; discriminate.
  - apply (List_cursor Examples.five_store.1 Examples.five_store.2
             "a651761e-8285-5539-81de-db51820bda65" 2 EmptyString []).
    exists 4%nat. split; [|vm_compute; reflexivity].
    apply (bool_decide_unpack _). vm_compute. exact I.
Defined.

(** The cursor tests of the repository: an unknown cursor, and the cursor of
    the last article, after which nothing is left. *)
Example List_cursors :
  let '(h, as_) := Examples.five_store in
  ArticleStore.List h as_ "invalid_cursor" 2 EmptyString []
  = ([], Some "could not find provided cursor")
  ∧ ArticleStore.List h as_ "a651761e-8285-5539-81de-db51820bda65" 2
      EmptyString []
    = ([], None)
  ∧ ArticleStore.List h as_ "461b4f1d-0d71-5a3c-96e8-a2654b90d1ea" 2
      EmptyString []
    = ([2; 3]%nat, None).
Proof. vm_compute. repeat split. Qed.

(** C8. [Get] fails with the invalid identifier error on the empty
    identifier, with the not found error on a non-empty identifier that the
    index lacks, and returns the indexed article otherwise; after [Reset],
    every identifier that [Get] answered fails with the not found error. *)
Theorem Get_cases (as_ : ArticleStore.t) (ID : string) :
  (ID = EmptyString →
   ArticleStore.Get as_ ID = (None, Some "invalid ID provided"))
  ∧ (ID ≠ EmptyString → ArticleStore.m as_ !! ID = None →
     ArticleStore.Get as_ ID = (None, Some "resource not found"))
  ∧ (∀ p, ID ≠ EmptyString → ArticleStore.m as_ !! ID = Some p →
          ArticleStore.Get as_ ID = (Some p, None))
  ∧ (∀ p, ArticleStore.Get as_ ID = (Some p, None) →
          ArticleStore.Get (ArticleStore.Reset as_) ID
          = (None, Some "resource not found")).
Proof.
  unfold ArticleStore.Get. repeat split.
  - intros ->. by rewrite bool_decide_eq_true_2.
  - intros Hne Hm. by rewrite bool_decide_eq_false_2, Hm.
  - intros p Hne Hm. by rewrite bool_decide_eq_false_2, Hm.
  - intros p. case_bool_decide; [discriminate|]. intros _.
    simpl. by rewrite lookup_empty.
Qed.

Lemma Get_cases_witness :
  ArticleStore.Get Examples.five_store.2 EmptyString
  = (None, Some "invalid ID provided")
  ∧ ArticleStore.Get Examples.five_store.2 "unknown"
    = (None, Some "resource not found")
  ∧ ArticleStore.Get Examples.five_store.2
      "461b4f1d-0d71-5a3c-96e8-a2654b90d1ea"
    = (Some 1%nat, None)
  ∧ ArticleStore.Get (ArticleStore.Reset Examples.five_store.2)
      "461b4f1d-0d71-5a3c-96e8-a2654b90d1ea"
    = (None, Some "resource not found").
Proof.
  split; [|split; [|split]].
  - apply (Get_cases Examples.five_store.2 EmptyString). reflexivity.
  - apply (Get_cases Examples.five_store.2 "unknown");
      [discriminate|vm_compute; reflexivity].
  - apply (Get_cases Examples.five_store.2
             "461b4f1d-0d71-5a3c-96e8-a2654b90d1ea");
      [discriminate|vm_compute; reflexivity].
  - apply (Get_cases Examples.five_store.2
             "461b4f1d-0d71-5a3c-96e8-a2654b90d1ea" ) with (p := 1%nat).
    vm_compute. reflexivity.
Defined.

(** The scenario of the specification and of [TestArticleStoreReset]. *)
Example Get_scenario :
  let '(_, as_) := Examples.five_store in
  ArticleStore.Get as_ EmptyString = (None, Some "invalid ID provided")
  ∧ ArticleStore.Get as_ "unknown" = (None, Some "resource not found")
  ∧ ArticleStore.Get as_ "461b4f1d-0d71-5a3c-96e8-a2654b90d1ea"
    = (Some 1%nat, None)
  ∧ ArticleStore.Get (ArticleStore.Reset as_)
      "461b4f1d-0d71-5a3c-96e8-a2654b90d1ea"
    = (None, Some "resource not found").
Proof. vm_compute. repeat split. Qed.

(** C9. In every state reachable by [Create] and [Reset] from a fresh store,
    no article occurs twice in the sequence, every article of the sequence is
    indexed under its own identifier, and every entry of the index is an
    article of the sequence filed under that article's identifier. *)
Theorem reachable_bijection (h : Heap) (as_ : ArticleStore.t) :
  reachable h as_ →
  NoDup (ArticleStore.a as_)
  ∧ (∀ p, p ∈ ArticleStore.a as_ →
          ArticleStore.m as_ !! Article.ID (h p) = Some p)
  ∧ (∀ k p, ArticleStore.m as_ !! k = Some p →
            p ∈ ArticleStore.a as_ ∧ Article.ID (h p) = k).
Proof.
  intros Hr. apply reachable_inv in Hr as [[Hnd Hidx Hmem] _ _]. done.
Qed.

Lemma reachable_bijection_witness :
  NoDup (ArticleStore.a Examples.five_store.2)
  ∧ (∀ p, p ∈ ArticleStore.a Examples.five_store.2 →
          ArticleStore.m Examples.five_store.2
            !! Article.ID (Examples.five_store.1 p) = Some p)
  ∧ (∀ k p, ArticleStore.m Examples.five_store.2 !! k = Some p →
            p ∈ ArticleStore.a Examples.five_store.2
            ∧ Article.ID (Examples.five_store.1 p) = k).
Proof.
  apply (reachable_bijection Examples.five_store.1 Examples.five_store.2).
  apply CreateAll_reachable, reachable_new.
Defined.

(** C10. [Create] of an article whose identifier is not indexed returns that
    article, stores it in the sequence and in the index, and changes in the
    heap only its ID field, which becomes the generated identifier; every
    other field, and every other article, is as before. When the identifier
    is indexed already, the heap and the store are unchanged and the indexed
    article is returned. *)
Theorem Create_frame (h : Heap) (as_ : ArticleStore.t) (p : ptr) :
  let gid := article_id h as_ p in
  let '(h', as', r) := ArticleStore.Create h as_ (Some p) in
  match ArticleStore.m as_ !! gid with
  | None =>
      r = (Some p, None)
      ∧ p ∈ ArticleStore.a as'
      ∧ ArticleStore.m as' !! gid = Some p
      ∧ Article.ID (h' p) = gid
      ∧ Article.FeedID (h' p) = Article.FeedID (h p)
      ∧ Article.GUID (h' p) = Article.GUID (h p)
      ∧ Article.Title (h' p) = Article.Title (h p)
      ∧ Article.Link (h' p) = Article.Link (h p)
      ∧ Article.Comments (h' p) = Article.Comments (h p)
      ∧ Article.PublishDate (h' p) = Article.PublishDate (h p)
      ∧ Article.Categories (h' p) = Article.Categories (h p)
      ∧ Article.Enclosures (h' p) = Article.Enclosures (h p)
      ∧ Article.Description (h' p) = Article.Description (h p)
      ∧ Article.Author (h' p) = Article.Author (h p)
      ∧ Article.Content (h' p) = Article.Content (h p)
      ∧ Article.FullText (h' p) = Article.FullText (h p)
      ∧ (∀ q, q ≠ p → h' q = h q)
  | Some q => r = (Some q, None) ∧ h' = h ∧ as' = as_
  end.
Proof.
  cbv zeta.
  destruct (Create_cases h as_ p)
    as [(q & Hm & Heq)|(Hm & l1 & l2 & Hl & _ & Heq)]; rewrite Heq, Hm.
  - done.
  - simpl. rewrite fn_lookup_insert. simpl.
    repeat split; try done.
    + apply elem_of_app. right. left.
    + apply lookup_insert_eq.
    + intros q Hq. by apply fn_lookup_insert_ne.
Qed.

(** The test "all fields are stored and returned correctly", on the first
    article of [TestArticleStoreList]. *)
Example Create_keeps_fields :
  let '(h', as', r) :=
    ArticleStore.Create Examples.five ArticleStore.NewArticleStore
      (Some 0%nat) in
  r = (Some 0%nat, None)
  ∧ h' 0%nat
    = Article.set_ID "85f12c7f-167b-51c4-8839-4a7468a75cc0"
        (Examples.five 0%nat).
Proof. vm_compute. split; reflexivity. Qed.

(** ** Further properties of the article store *)

Lemma reachable_namespace (h : Heap) (as_ : ArticleStore.t) :
  reachable h as_ →
  ArticleStore.uuidNamespace as_ = uuid.MustParse store.uuidNamespace.
Proof.
  induction 1 as [h|h as_ [p|] _ IH|h as_ _ IH]; try done.
  destruct (Create_cases h as_ p)
    as [(q & _ & ->)|(_ & l1 & l2 & _ & _ & ->)]; done.
Qed.

Lemma chronological_sublist (h : Heap) (l1 l2 : list ptr) :
  l1 `sublist_of` l2 → chronological h l2 → chronological h l1.
Proof.
  unfold chronological. induction 1 as [|x l1 l2 Hsub IH|x l1 l2 Hsub IH];
    intros Hs; [done|..].
  - apply StronglySorted_cons in Hs as [Hall Hs].
    apply StronglySorted_cons. split; [|auto].
    rewrite Forall_forall in Hall |- *. intros y Hy.
    apply Hall. by eapply sublist_subseteq.
  - apply StronglySorted_cons in Hs as [_ Hs]. auto.
Qed.

Lemma sublist_page (pageSize : Z) (l : list ptr) :
  page pageSize l `sublist_of` l.
Proof. unfold page. destruct (0 <? pageSize); [apply sublist_take|done]. Qed.

(** X1. In a reachable state the identifier of the article that [Create]
    returns is the generated one, and [Get] with it gives that article back. *)
Theorem Create_then_Get (h : Heap) (as_ : ArticleStore.t) (p : ptr) :
  reachable h as_ →
  let '(h', as', r) := ArticleStore.Create h as_ (Some p) in
  ∃ q, r = (Some q, None)
       ∧ Article.ID (h' q) = article_id h as_ p
       ∧ ArticleStore.Get as' (Article.ID (h' q)) = (Some q, None).
Proof.
  intros Hr. apply reachable_inv in Hr as [[_ _ Hmem] _ _].
  pose proof (generateID_nonempty (ArticleStore.uuidNamespace as_)
                (Article.GUID (h p))) as Hne.
  fold (article_id h as_ p) in Hne.
  destruct (Create_cases h as_ p)
    as [(q & Hm & ->)|(Hm & l1 & l2 & _ & _ & ->)].
  - exists q. destruct (Hmem _ _ Hm) as [_ Hid]. rewrite Hid.
    repeat split. unfold ArticleStore.Get.
    by rewrite bool_decide_eq_false_2, Hm.
  - exists p. rewrite fn_lookup_insert. simpl. repeat split.
    unfold ArticleStore.Get. simpl.
    by rewrite bool_decide_eq_false_2, lookup_insert_eq.
Qed.

Lemma Create_then_Get_witness :
  let '(h', as', r) :=
    ArticleStore.Create Examples.ties_store.1 Examples.ties_store.2
      (Some 2%nat) in
  ∃ q, r = (Some q, None)
       ∧ Article.ID (h' q)
         = article_id Examples.ties_store.1 Examples.ties_store.2 2%nat
       ∧ ArticleStore.Get as' (Article.ID (h' q)) = (Some q, None).
Proof.
  apply (Create_then_Get Examples.ties_store.1 Examples.ties_store.2 2).
  apply CreateAll_reachable, reachable_new.
Defined.

(** X2. In every state, [Create] keeps the stored articles in their order
    and adds at most one, keeps every entry of the index, and writes to no
    article but the one it is given. *)
Theorem Create_keeps_stored (h : Heap) (as_ : ArticleStore.t) (p : ptr) :
  let '(h', as', _) := ArticleStore.Create h as_ (Some p) in
  ArticleStore.a as_ `sublist_of` ArticleStore.a as'
  ∧ (length (ArticleStore.a as') ≤ S (length (ArticleStore.a as_)))%nat
  ∧ (∀ k q, ArticleStore.m as_ !! k = Some q →
            ArticleStore.m as' !! k = Some q)
  ∧ (∀ q, q ≠ p → h' q = h q).
Proof.
  destruct (Create_cases h as_ p)
    as [(q & Hm & ->)|(Hm & l1 & l2 & Hl & _ & ->)]; simpl.
  - repeat split; auto.
  - rewrite Hl. split; [|split; [|split]].
    + apply sublist_app; [done|]. by apply sublist_cons.
    + rewrite !length_app. simpl. lia.
    + intros k q Hk. rewrite lookup_insert_ne; [done|]. congruence.
    + intros q Hq. by apply fn_lookup_insert_ne.
Qed.

(** X3. In a reachable state the sequence and the index have the same
    number of articles. *)
Theorem reachable_same_size (h : Heap) (as_ : ArticleStore.t) :
  reachable h as_ →
  length (ArticleStore.a as_) = size (ArticleStore.m as_).
Proof.
  induction 1 as [h|h as_ [p|] _ IH|h as_ _ IH]; try done.
  destruct (Create_cases h as_ p)
    as [(q & _ & ->)|(Hm & l1 & l2 & Hl & _ & ->)]; [done|].
  simpl. rewrite map_size_insert_None by done. rewrite <- IH, Hl.
  rewrite !length_app. simpl. lia.
Qed.

Lemma reachable_same_size_witness :
  length (ArticleStore.a Examples.five_store.2)
  = size (ArticleStore.m Examples.five_store.2).
Proof.
  apply (reachable_same_size Examples.five_store.1 Examples.five_store.2).
  apply CreateAll_reachable, reachable_new.
Defined.

(** X4. [Reset] of a reachable store is the fresh store: the sequence and
    the index are empty and the namespace is the one of the constructor. *)
Theorem Reset_is_new (h : Heap) (as_ : ArticleStore.t) :
  reachable h as_ → ArticleStore.Reset as_ = ArticleStore.NewArticleStore.
Proof.
  intros Hr. unfold ArticleStore.Reset, ArticleStore.NewArticleStore.
  by rewrite (reachable_namespace h as_ Hr).
Qed.

Lemma Reset_is_new_witness :
  ArticleStore.Reset Examples.five_store.2 = ArticleStore.NewArticleStore.
Proof.
  apply (Reset_is_new Examples.five_store.1 Examples.five_store.2).
  apply CreateAll_reachable, reachable_new.
Defined.

(** X5. In a reachable state, whatever the cursor, the page size and the
    filters, the articles [List] returns stand in the order of the sequence:
    no article twice, and in non-descending order of publish date. *)
Theorem List_in_order (h : Heap) (as_ : ArticleStore.t) (cursor : string)
    (pageSize : Z) (feed : string) (categories : list string)
    (res : list ptr) :
  reachable h as_ →
  ArticleStore.List h as_ cursor pageSize feed categories = (res, None) →
  res `sublist_of` ArticleStore.a as_ ∧ NoDup res ∧ chronological h res.
Proof.
  intros Hr. apply reachable_inv in Hr as [[Hnd _ _] _ Hsorted].
  rewrite List_spec.
  destruct (ArticleStore.findArticleCursorIndex h as_ cursor) as [i [|]];
    simpl; [|discriminate].
  intros [= <-].
  assert (Hsub : page pageSize
                   (filter (included h categories feed)
                      (drop i (ArticleStore.a as_)))
                 `sublist_of` ArticleStore.a as_).
  { etrans; [apply sublist_page|]. etrans; [apply sublist_filter|].
    apply sublist_drop. }
  split; [done|]. split.
  - by eapply sublist_NoDup.
  - by eapply chronological_sublist.
Qed.

Lemma List_in_order_witness :
  [0; 1; 4]%nat `sublist_of` ArticleStore.a Examples.five_store.2
  ∧ NoDup [0; 1; 4]%nat
  ∧ chronological Examples.five_store.1 [0; 1; 4]%nat.
Proof.
  apply (List_in_order Examples.five_store.1 Examples.five_store.2
           EmptyString 6 EmptyString ["cat_4"; "cat_3"]).
  - apply CreateAll_reachable, reachable_new.
  - vm_compute. reflexivity.
Defined.

(** X6. A positive page size bounds the number of articles [List] returns,
    and a page shorter than the page size holds every selected article after
    the cursor; a page size of zero or less puts no bound. *)
Theorem List_page_size (h : Heap) (as_ : ArticleStore.t) (cursor : string)
    (pageSize : Z) (feed : string) (categories : list string)
    (res : list ptr) :
  ArticleStore.List h as_ cursor pageSize feed categories = (res, None) →
  let selection :=
    filter (included h categories feed)
      (drop (ArticleStore.findArticleCursorIndex h as_ cursor).1
         (ArticleStore.a as_)) in
  (1 ≤ pageSize → Z.of_nat (length res) ≤ pageSize)
  ∧ (Z.of_nat (length res) < pageSize → res = selection)
  ∧ (pageSize ≤ 0 → res = selection).
Proof.
  rewrite List_spec.
  destruct (ArticleStore.findArticleCursorIndex h as_ cursor) as [i [|]];
    simpl; [|discriminate].
  intros [= <-]. unfold page.
  destruct (0 <? pageSize) eqn:HP.
  - rewrite length_take. repeat split; [lia| |lia].
    intros Hlt. apply take_ge. lia.
  - repeat split; [lia|done..].
Qed.

Lemma List_page_size_witness :
  let selection :=
    filter (included Examples.five_store.1 [] EmptyString)
      (drop
         (ArticleStore.findArticleCursorIndex Examples.five_store.1
            Examples.five_store.2 "1d852aa8-2ce9-58fa-b8e5-46c3cdd4a098").1
         (ArticleStore.a Examples.five_store.2)) in
  (1 ≤ 2 → Z.of_nat (length [4%nat]) ≤ 2)
  ∧ (Z.of_nat (length [4%nat]) < 2 → [4%nat] = selection)
  ∧ (2 ≤ 0 → [4%nat] = selection).
Proof.
  apply (List_page_size Examples.five_store.1 Examples.five_store.2
           "1d852aa8-2ce9-58fa-b8e5-46c3cdd4a098" 2 EmptyString []).
  vm_compute. reflexivity.
Defined.

(** A negative page size lists everything, like zero. *)
Example List_negative_page_size :
  ArticleStore.List Examples.five_store.1 Examples.five_store.2 EmptyString
    (-1) EmptyString []
  = ([0; 1; 2; 3; 4]%nat, None).
Proof. vm_compute. reflexivity. Qed.

(** X7. In a reachable state, [List] with the identifier of the article at
    position [j] as cursor selects among the articles after position [j]:
    a stored identifier is never empty and is the identifier of no other
    stored article. *)
Theorem List_resumes_after_cursor (h : Heap) (as_ : ArticleStore.t)
    (j : nat) (p : ptr) (pageSize : Z) (feed : string)
    (categories : list string) :
  reachable h as_ → ArticleStore.a as_ !! j = Some p →
  ArticleStore.List h as_ (Article.ID (h p)) pageSize feed categories
  = (page pageSize
       (filter (included h categories feed)
          (drop (S j) (ArticleStore.a as_))),
     None).
Proof.
  intros Hr Hj. apply reachable_inv in Hr.
  by rewrite List_spec, (cursor_of_stored h as_ j p Hr Hj).
Qed.

Lemma List_resumes_after_cursor_witness :
  ArticleStore.List Examples.five_store.1 Examples.five_store.2
    (Article.ID (Examples.five_store.1 1%nat)) 2 EmptyString ["cat_3"]
  = (page 2
       (filter (included Examples.five_store.1 ["cat_3"] EmptyString)
          (drop 2 (ArticleStore.a Examples.five_store.2))),
     None).
Proof.
  apply (List_resumes_after_cursor Examples.five_store.1
           Examples.five_store.2 1 1 2 EmptyString ["cat_3"]).
  - apply CreateAll_reachable, reachable_new.
  - vm_compute. reflexivity.
Defined.

Lemma CreateAll_indexed (h : Heap) (as_ : ArticleStore.t)
    (articles : list ptr) :
  (∀ p, p ∈ articles →
        is_Some (ArticleStore.m as_ !! article_id h as_ p)) →
  CreateAll h as_ articles = (h, as_).
Proof.
  induction articles as [|p ps IH]; intros Hall; [done|].
  simpl. destruct (Create_cases h as_ p) as [(q & _ & ->)|(Hm & _)].
  - apply IH. intros p' Hp'. apply Hall. by right.
  - destruct (Hall p) as [q Hq]; [by left|]. congruence.
Qed.

(** X8. Storing a batch that was stored before changes nothing: in every
    state, [Create] over a list of articles followed by [Create] over the
    same list leaves the heap and the store as the first pass made them. *)
Theorem CreateAll_again (h : Heap) (as_ : ArticleStore.t)
    (articles : list ptr) :
  let '(h1, as1) := CreateAll h as_ articles in
  CreateAll h1 as1 articles = (h1, as1).
Proof.
  pose proof (CreateAll_effects h as_ articles) as (_ & Hid & _ & Hnew).
  destruct (CreateAll h as_ articles) as [h1 as1]. simpl in *.
  apply CreateAll_indexed. intros p Hp. rewrite Hid. by apply Hnew.
Qed.

(** The state after [Create] over articles with fresh, pairwise distinct
    identifiers: each of them has its identifier written, and the index has
    one more entry for each. *)
Lemma CreateAll_fresh (h : Heap) (as_ : ArticleStore.t)
    (articles : list ptr) :
  NoDup (article_id h as_ <$> articles) →
  (∀ p, p ∈ articles → ArticleStore.m as_ !! article_id h as_ p = None) →
  let r := CreateAll h as_ articles in
  (∀ q, r.1 q = if decide (q ∈ articles)
                then Article.set_ID (article_id h as_ q) (h q) else h q)
  ∧ (∀ k q, ArticleStore.m r.2 !! k = Some q
            ↔ ArticleStore.m as_ !! k = Some q
              ∨ (q ∈ articles ∧ article_id h as_ q = k))
  ∧ ArticleStore.uuidNamespace r.2 = ArticleStore.uuidNamespace as_.
Proof.
  revert h as_. induction articles as [|p ps IH]; intros h as_ Hnd Hnew.
  { simpl. split; [|split]; [done| |done].
    intros k q. split; [by left|]. intros [?|[Hq _]]; [done|].
    by apply elem_of_nil in Hq. }
  simpl. rewrite fmap_cons in Hnd. apply NoDup_cons in Hnd as [Hp Hnd].
  pose proof (Create_effects h as_ p) as (_ & Hid & _ & _).
  destruct (Create_cases h as_ p)
    as [(q & Hm & _)|(Hm & l1 & l2 & Hl & _ & Heq)].
  { rewrite Hnew in Hm by left. done. }
  rewrite Heq in Hid |- *. simpl in Hid.
  set (h1 := <[p := _]> h) in *. set (as1 := ArticleStore.Build_t _ _ _) in *.
  assert (Hps : p ∉ ps).
  { intros Hin. apply Hp. by apply list_elem_of_fmap_2. }
  destruct (IH h1 as1) as (Hh & Hmap & Hns).
  { erewrite list_fmap_ext; [exact Hnd|]. intros i x Hx. apply Hid. }
  { intros q Hq. rewrite Hid. unfold as1. simpl. rewrite lookup_insert_ne.
    - apply Hnew. by right.
    - intros Heq'. apply Hp. rewrite Heq'. by apply list_elem_of_fmap_2. }
  split; [|split]; [| |by rewrite Hns].
  - intros q. rewrite Hh, Hid.
    destruct (decide (q ∈ ps)) as [Hq|Hq].
    + rewrite decide_True by (by right).
      unfold h1. rewrite fn_lookup_insert_ne; [done|]. congruence.
    + destruct (decide (q = p)) as [->|Hqp].
      * rewrite decide_True by left. unfold h1. by rewrite fn_lookup_insert.
      * rewrite decide_False by (rewrite elem_of_cons; tauto).
        unfold h1. by rewrite fn_lookup_insert_ne.
  - intros k q. rewrite Hmap, Hid. unfold as1. simpl.
    rewrite elem_of_cons.
    destruct (decide (article_id h as_ p = k)) as [<-|Hk].
    + rewrite lookup_insert_eq, Hm. split.
      * intros [[= <-]|[? ?]]; right; split; auto.
      * intros [?|[[->|Hq] Hidq]]; [done|by left|by right].
    + rewrite lookup_insert_ne by done. split.
      * intros [?|[? ?]]; [by left|right; split; auto].
      * intros [?|[[->|Hq] Hidq]]; [by left|done|by right].
Qed.

(** X9. When the articles have pairwise distinct identifiers and pairwise
    distinct publish dates, the store does not depend on the order in which
    they arrive: [Create] over any two orderings of them, from a fresh store,
    ends with the same sequence, the same index and the same heap. *)
Theorem Create_order_independent (h0 : Heap) (articles articles' : list ptr) :
  articles ≡ₚ articles' →
  NoDup (article_id h0 ArticleStore.NewArticleStore <$> articles) →
  (∀ p q, p ∈ articles → q ∈ articles → date h0 p = date h0 q → p = q) →
  let '(h1, as1) := CreateAll h0 ArticleStore.NewArticleStore articles in
  let '(h2, as2) := CreateAll h0 ArticleStore.NewArticleStore articles' in
  as1 = as2 ∧ ∀ q, h1 q = h2 q.
Proof.
  intros Hperm Hnd Hdates.
  assert (Hnd' : NoDup (article_id h0 ArticleStore.NewArticleStore
                          <$> articles')) by (by rewrite <- Hperm).
  assert (Hnone : ∀ (l : list ptr) p, p ∈ l →
            ArticleStore.m ArticleStore.NewArticleStore
              !! article_id h0 ArticleStore.NewArticleStore p = None)
    by (intros; apply lookup_empty).
  pose proof (CreateAll_fresh h0 _ articles Hnd (Hnone _)) as (Hh1 & Hm1 & Hn1).
  pose proof (CreateAll_fresh h0 _ articles' Hnd' (Hnone _))
    as (Hh2 & Hm2 & Hn2).
  pose proof (CreateAll_Permutation h0 _ articles Hnd (Hnone _)) as Hp1.
  pose proof (CreateAll_Permutation h0 _ articles' Hnd' (Hnone _)) as Hp2.
  pose proof (CreateAll_effects h0 ArticleStore.NewArticleStore articles)
    as (Hd1 & _).
  pose proof (CreateAll_effects h0 ArticleStore.NewArticleStore articles')
    as (Hd2 & _).
  pose proof (CreateAll_reachable h0 _ articles (reachable_new h0)) as Hr1.
  pose proof (CreateAll_reachable h0 _ articles' (reachable_new h0)) as Hr2.
  destruct (CreateAll h0 ArticleStore.NewArticleStore articles) as [h1 as1].
  destruct (CreateAll h0 ArticleStore.NewArticleStore articles') as [h2 as2].
  simpl in *. rewrite app_nil_r in Hp1, Hp2.
  apply reachable_inv in Hr1 as [_ _ Hs1]. apply reachable_inv in Hr2 as [_ _ Hs2].
  split.
  - destruct as1 as [a1 m1 n1], as2 as [a2 m2 n2]. simpl in *. f_equal.
    + apply (StronglySorted_unique_strong (not_later h0)).
      * intros x1 x2 Hx1 Hx2 H12 H21. apply Hdates.
        -- by rewrite <- Hp1.
        -- by rewrite Hperm, <- Hp2.
        -- by apply After_total.
      * by apply (chronological_ext h1).
      * by apply (chronological_ext h2).
      * by rewrite Hp1, Hp2.
    + apply map_eq. intros k. destruct (m1 !! k) as [q|] eqn:E1.
      * symmetry. apply Hm2. apply Hm1 in E1 as [?|[Hq Hk]]; [by left|].
        right. split; [by rewrite <- Hperm|done].
      * destruct (m2 !! k) as [q|] eqn:E2; [|done].
        apply Hm2 in E2 as [E2|[Hq Hk]].
        -- by rewrite lookup_empty in E2.
        -- assert (m1 !! k = Some q) as E; [|congruence].
           apply Hm1. right. split; [by rewrite Hperm|done].
    + congruence.
  - intros q. rewrite Hh1, Hh2.
    destruct (decide (q ∈ articles)) as [Hq|Hq].
    + rewrite decide_True; [done|]. by rewrite <- Hperm.
    + rewrite decide_False; [done|]. by rewrite <- Hperm.
Qed.

Lemma Create_order_independent_witness :
  let '(h1, as1) :=
    CreateAll Examples.three ArticleStore.NewArticleStore [0; 1; 2]%nat in
  let '(h2, as2) :=
    CreateAll Examples.three ArticleStore.NewArticleStore [2; 0; 1]%nat in
  as1 = as2 ∧ ∀ q, h1 q = h2 q.
Proof.
  apply (Create_order_independent Examples.three [0; 1; 2]%nat [2; 0; 1]%nat).
  - apply (bool_decide_unpack _). vm_compute. exact I.
  - apply (bool_decide_unpack _). vm_compute. exact I.
  - intros p q Hp Hq. apply list_elem_of_In in Hp, Hq.
    simpl in Hp, Hq.
    destruct Hp as [<-|[<-|[<-|[]]]]; destruct Hq as [<-|[<-|[<-|[]]]];
      vm_compute; intros Heq; first [reflexivity|discriminate Heq].
Defined.

(** ** The feed store *)

Lemma Feed_Create_cases (h : FeedHeap) (fs : FeedStore.t) (f : ptr) :
  (∃ g, FeedStore.m fs !! feed_id h fs f = Some g
        ∧ FeedStore.Create h fs (Some f) = (h, fs, (Some g, None)))
  ∨ (FeedStore.m fs !! feed_id h fs f = None
     ∧ FeedStore.Create h fs (Some f)
       = (<[f := Feed.set_ID (feed_id h fs f) (h f)]> h,
          {| FeedStore.m := <[feed_id h fs f := f]> (FeedStore.m fs);
             FeedStore.uuidNamespace := FeedStore.uuidNamespace fs |},
          (Some f, None))).
Proof.
  unfold FeedStore.Create. fold (feed_id h fs f).
  destruct (FeedStore.m fs !! feed_id h fs f) as [g|] eqn:Hm.
  - left. by exists g.
  - by right.
Qed.

Lemma Address_set_ID (h : FeedHeap) (f g : ptr) (id : string) :
  Feed.Address (<[f := Feed.set_ID id (h f)]> h g) = Feed.Address (h g).
Proof.
  destruct (decide (f = g)) as [->|Hne].
  - by rewrite fn_lookup_insert.
  - by rewrite fn_lookup_insert_ne.
Qed.

(** Every entry of a reachable feed store is filed under the identifier its
    feed carries, which is the one generated from the feed's address. *)
Lemma feed_reachable_inv (h : FeedHeap) (fs : FeedStore.t) :
  feed_reachable h fs →
  ∀ k f, FeedStore.m fs !! k = Some f →
         Feed.ID (h f) = k ∧ k = feed_id h fs f.
Proof.
  induction 1 as [h|h fs [f|] _ IH|h fs _ IH]; try done.
  destruct (Feed_Create_cases h fs f) as [(g & _ & ->)|(Hm & ->)]; [done|].
  simpl. intros k g Hk. unfold feed_id. simpl. rewrite Address_set_ID.
  fold (feed_id h fs g).
  destruct (decide (feed_id h fs f = k)) as [<-|Hne].
  - rewrite lookup_insert_eq in Hk. injection Hk as <-.
    by rewrite fn_lookup_insert.
  - rewrite lookup_insert_ne in Hk by done.
    destruct (IH k g Hk) as [Hid Hkg].
    rewrite fn_lookup_insert_ne; [done|]. congruence.
Qed.

(** X10. For every state of the feed store and every two feeds with the same
    address, [Create] of the first and then of the second returns the same
    feed twice, with no error; the second call changes neither the store nor
    the heap, and the index grows by at most one over the two calls. *)
Theorem Feed_Create_idempotent (h : FeedHeap) (fs : FeedStore.t)
    (f1 f2 : ptr) :
  Feed.Address (h f1) = Feed.Address (h f2) →
  let '(h1, fs1, r1) := FeedStore.Create h fs (Some f1) in
  let '(h2, fs2, r2) := FeedStore.Create h1 fs1 (Some f2) in
  (∃ g, r1 = (Some g, None) ∧ r2 = (Some g, None)
        ∧ FeedStore.m fs1 !! feed_id h fs f1 = Some g)
  ∧ fs2 = fs1 ∧ h2 = h1
  ∧ (size (FeedStore.m fs2) ≤ size (FeedStore.m fs) + 1)%nat.
Proof.
  intros HA.
  assert (Hsame : feed_id h fs f2 = feed_id h fs f1)
    by (unfold feed_id; by rewrite HA).
  destruct (Feed_Create_cases h fs f1) as [(g & Hm & ->)|(Hm & ->)].
  - destruct (Feed_Create_cases h fs f2) as [(g' & Hm' & ->)|(Hm' & _)];
      rewrite Hsame in Hm'; [|congruence].
    assert (g' = g) as -> by congruence.
    repeat split; try lia. by exists g.
  - set (h1 := <[f1 := _]> h). set (fs1 := FeedStore.Build_t _ _).
    assert (Hid : feed_id h1 fs1 f2 = feed_id h fs f1).
    { rewrite <- Hsame. unfold feed_id, h1. simpl. by rewrite Address_set_ID. }
    destruct (Feed_Create_cases h1 fs1 f2) as [(g' & Hm' & ->)|(Hm' & _)];
      rewrite Hid in Hm'; simpl in Hm'; rewrite lookup_insert_eq in Hm';
      [|done].
    injection Hm' as <-. split; [|split; [|split]]; try done.
    + exists f1. repeat split. simpl. apply lookup_insert_eq.
    + simpl. rewrite map_size_insert_None by done. lia.
Qed.

Lemma Feed_Create_idempotent_witness :
  let '(h1, fs1, r1) :=
    FeedStore.Create Examples.three_feeds FeedStore.NewFeedStore
      (Some 0%nat) in
  let '(h2, fs2, r2) := FeedStore.Create h1 fs1 (Some 1%nat) in
  (∃ g, r1 = (Some g, None) ∧ r2 = (Some g, None)
        ∧ FeedStore.m fs1
            !! feed_id Examples.three_feeds FeedStore.NewFeedStore 0%nat
          = Some g)
  ∧ fs2 = fs1 ∧ h2 = h1
  ∧ (size (FeedStore.m fs2)
     ≤ size (FeedStore.m FeedStore.NewFeedStore) + 1)%nat.
Proof.
  apply (Feed_Create_idempotent Examples.three_feeds FeedStore.NewFeedStore
           0 1).
  reflexivity.
Defined.

(** X11. In a reachable feed store, a feed that [Get] returns carries the
    identifier it was asked for, and that identifier is the one generated
    from the feed's address. *)
Theorem Feed_Get_identifier (h : FeedHeap) (fs : FeedStore.t) (ID : string)
    (f : ptr) :
  feed_reachable h fs →
  FeedStore.Get fs ID = (Some f, None) →
  Feed.ID (h f) = ID ∧ ID = feed_id h fs f.
Proof.
  intros Hr. unfold FeedStore.Get. case_bool_decide; [done|].
  destruct (FeedStore.m fs !! ID) as [g|] eqn:Hm; [|done].
  intros [= ->]. by apply (feed_reachable_inv h fs Hr).
Qed.

Lemma Feed_Get_identifier_witness :
  Feed.ID (Examples.feed_store.1 0%nat)
  = "dbefb2be-dfe0-5513-b23a-cc04c551221e"
  ∧ "dbefb2be-dfe0-5513-b23a-cc04c551221e"
    = feed_id Examples.feed_store.1 Examples.feed_store.2 0%nat.
Proof.
  apply (Feed_Get_identifier Examples.feed_store.1 Examples.feed_store.2).
  - apply feed_reachable_Create, feed_reachable_Create, feed_reachable_new.
  - vm_compute. reflexivity.
Defined.

(** X12. In a reachable feed store, [Create] returns a feed whose identifier
    is the generated one, [Get] with that identifier gives the feed back, and
    after [Reset] the same identifier is not found. *)
Theorem Feed_Create_then_Get (h : FeedHeap) (fs : FeedStore.t) (f : ptr) :
  feed_reachable h fs →
  let '(h', fs', r) := FeedStore.Create h fs (Some f) in
  ∃ g, r = (Some g, None)
       ∧ Feed.ID (h' g) = feed_id h fs f
       ∧ FeedStore.Get fs' (Feed.ID (h' g)) = (Some g, None)
       ∧ FeedStore.Get (FeedStore.Reset fs') (Feed.ID (h' g))
         = (None, Some "resource not found").
Proof.
  intros Hr.
  pose proof (generateID_nonempty (FeedStore.uuidNamespace fs)
                (Feed.Address (h f))) as Hne.
  fold (feed_id h fs f) in Hne.
  destruct (Feed_Create_cases h fs f) as [(g & Hm & ->)|(Hm & ->)].
  - exists g. destruct (feed_reachable_inv h fs Hr _ _ Hm) as [Hid _].
    rewrite Hid. unfold FeedStore.Get. simpl.
    rewrite bool_decide_eq_false_2, Hm by done. by rewrite lookup_empty.
  - exists f. rewrite fn_lookup_insert. simpl. unfold FeedStore.Get. simpl.
    by rewrite bool_decide_eq_false_2, lookup_insert_eq, lookup_empty.
Qed.

Lemma Feed_Create_then_Get_witness :
  let '(h', fs', r) :=
    FeedStore.Create Examples.feed_store.1 Examples.feed_store.2
      (Some 1%nat) in
  ∃ g, r = (Some g, None)
       ∧ Feed.ID (h' g)
         = feed_id Examples.feed_store.1 Examples.feed_store.2 1%nat
       ∧ FeedStore.Get fs' (Feed.ID (h' g)) = (Some g, None)
       ∧ FeedStore.Get (FeedStore.Reset fs') (Feed.ID (h' g))
         = (None, Some "resource not found").
Proof.
  apply (Feed_Create_then_Get Examples.feed_store.1 Examples.feed_store.2 1).
  apply feed_reachable_Create, feed_reachable_Create, feed_reachable_new.
Defined.

(** X13. In a reachable feed store, [List] returns no error and, in whatever
    order the map is walked, every stored feed exactly once: as many feeds as
    the index has entries, none twice, and a feed is listed exactly when
    [Get] with its identifier returns it. *)
Theorem Feed_List_all (h : FeedHeap) (fs : FeedStore.t) (res : list ptr) :
  feed_reachable h fs →
  res ≡ₚ (FeedStore.List fs).1 →
  (FeedStore.List fs).2 = None
  ∧ NoDup res
  ∧ length res = size (FeedStore.m fs)
  ∧ ∀ f, f ∈ res ↔ FeedStore.Get fs (Feed.ID (h f)) = (Some f, None).
Proof.
  intros Hr Hperm. pose proof (feed_reachable_inv h fs Hr) as Hinv.
  unfold FeedStore.List in *. simpl in *.
  split; [done|]. split; [|split].
  - rewrite Hperm. apply NoDup_fmap_2_strong; [|apply NoDup_map_to_list].
    intros [k1 f1] [k2 f2] H1 H2 Heq. simpl in Heq. subst f2.
    apply elem_of_map_to_list in H1, H2.
    destruct (Hinv _ _ H1) as [<- _]. destruct (Hinv _ _ H2) as [<- _]. done.
  - by rewrite Hperm, length_fmap, length_map_to_list.
  - intros f. rewrite Hperm, list_elem_of_fmap. unfold FeedStore.Get. split.
    + intros ([k g] & -> & Hin). simpl. apply elem_of_map_to_list in Hin.
      destruct (Hinv _ _ Hin) as [Hid Hk]. rewrite Hid.
      rewrite bool_decide_eq_false_2, Hin; [done|].
      rewrite Hk. apply generateID_nonempty.
    + case_bool_decide; [done|].
      destruct (FeedStore.m fs !! Feed.ID (h f)) as [g|] eqn:Hm; [|done].
      intros [= ->]. exists (Feed.ID (h f), f). split; [done|].
      by apply elem_of_map_to_list.
Qed.

Lemma Feed_List_all_witness :
  (FeedStore.List Examples.feed_store.2).2 = None
  ∧ NoDup [2; 0]%nat
  ∧ length [2; 0]%nat = size (FeedStore.m Examples.feed_store.2)
  ∧ ∀ f, f ∈ [2; 0]%nat
         ↔ FeedStore.Get Examples.feed_store.2
             (Feed.ID (Examples.feed_store.1 f))
           = (Some f, None).
Proof.
  apply (Feed_List_all Examples.feed_store.1 Examples.feed_store.2).
  - apply feed_reachable_Create, feed_reachable_Create, feed_reachable_new.
  - apply (bool_decide_unpack _). vm_compute. exact I.
Defined.

(** ** The feed consumer over the article store *)

Lemma chronological_agree (h h' : Heap) (l : list ptr) :
  (∀ q, q ∈ l → date h' q = date h q) →
  chronological h l → chronological h' l.
Proof.
  unfold chronological. intros Hd Hs. induction Hs as [|x l Hs IH Hall].
  - constructor.
  - constructor.
    + apply IH. intros q Hq. apply Hd. by right.
    + rewrite Forall_forall in Hall |- *. intros y Hy. unfold not_later.
      rewrite (Hd x) by left. rewrite (Hd y) by (by right). by apply Hall.
Qed.

(** The invariant looks at the identifier, the GUID and the publish date of
    the stored articles and at nothing else of the heap. *)
Lemma store_inv_agree (h h' : Heap) (as_ : ArticleStore.t) :
  (∀ q, q ∈ ArticleStore.a as_ →
        Article.ID (h' q) = Article.ID (h q)
        ∧ Article.GUID (h' q) = Article.GUID (h q)
        ∧ Article.PublishDate (h' q) = Article.PublishDate (h q)) →
  store_inv h as_ → store_inv h' as_.
Proof.
  intros Hagree [[Hnd Hidx Hmem] Hid Hsorted].
  split; [split|..].
  - done.
  - intros p Hp. destruct (Hagree p Hp) as (-> & _ & _). auto.
  - intros k p Hk. destruct (Hmem k p Hk) as [Hp <-].
    split; [done|]. by destruct (Hagree p Hp) as (-> & _ & _).
  - intros p Hp. destruct (Hagree p Hp) as (HID & HG & _).
    unfold article_id. rewrite HID, HG. by apply Hid.
  - apply (chronological_agree h); [|done].
    intros q Hq. unfold date. by destruct (Hagree q Hq) as (_ & _ & ->).
Qed.

Lemma set_FeedID_agree (h : Heap) (p q : ptr) (id : string) :
  let h' := <[p := Article.set_FeedID id (h p)]> h in
  Article.ID (h' q) = Article.ID (h q)
  ∧ Article.GUID (h' q) = Article.GUID (h q)
  ∧ Article.PublishDate (h' q) = Article.PublishDate (h q).
Proof.
  simpl. destruct (decide (p = q)) as [->|Hne].
  - by rewrite fn_lookup_insert.
  - by rewrite fn_lookup_insert_ne.
Qed.

Lemma Create_FeedID (h : Heap) (as_ : ArticleStore.t) (p q : ptr) :
  Article.FeedID ((ArticleStore.Create h as_ (Some p)).1.1 q)
  = Article.FeedID (h q).
Proof.
  destruct (Create_cases h as_ p)
    as [(g & _ & ->)|(_ & l1 & l2 & _ & _ & ->)]; [done|].
  simpl. destruct (decide (p = q)) as [->|Hne].
  - by rewrite fn_lookup_insert.
  - by rewrite fn_lookup_insert_ne.
Qed.

Lemma Create_no_error (h : Heap) (as_ : ArticleStore.t)
    (article : option ptr) :
  (ArticleStore.Create h as_ article).2.2 = None.
Proof.
  destruct article as [p|]; [|done].
  by destruct (Create_cases h as_ p)
    as [(g & _ & ->)|(_ & l1 & l2 & _ & _ & ->)].
Qed.

Lemma Create_sublist_frame (h : Heap) (as_ : ArticleStore.t) (p : ptr) :
  ArticleStore.a as_
    `sublist_of` ArticleStore.a (ArticleStore.Create h as_ (Some p)).1.2
  ∧ ∀ q, q ≠ p → (ArticleStore.Create h as_ (Some p)).1.1 q = h q.
Proof.
  destruct (Create_cases h as_ p)
    as [(g & _ & ->)|(_ & l1 & l2 & Hl & _ & ->)]; simpl; [done|].
  rewrite Hl. split.
  - apply sublist_app; [done|]. by apply sublist_cons.
  - intros q Hq. by apply fn_lookup_insert_ne.
Qed.

Lemma Consume_loop_store (h : Heap) (hf : FeedHeap) (as_ : ArticleStore.t)
    (feed : ptr) (articles : list ptr) :
  store_inv h as_ →
  let r := feedconsumer.Consume_loop ArticleStore.Create h hf as_ feed
             articles in
  r.2 = None
  ∧ store_inv r.1.1 r.1.2
  ∧ (∀ p, p ∈ articles → Article.FeedID (r.1.1 p) = Feed.ID (hf feed))
  ∧ (∀ p, p ∈ articles →
          is_Some (ArticleStore.m r.1.2 !! article_id h as_ p))
  ∧ (∀ q, q ∉ articles → r.1.1 q = h q)
  ∧ ArticleStore.a as_ `sublist_of` ArticleStore.a r.1.2
  ∧ (∀ q, article_id r.1.1 r.1.2 q = article_id h as_ q)
  ∧ (∀ k q, ArticleStore.m as_ !! k = Some q →
            ArticleStore.m r.1.2 !! k = Some q).
Proof.
  revert h as_. induction articles as [|p ps IH]; intros h as_ Hinv.
  { simpl. split; [done|]. split; [done|].
    split; [intros p Hp; by apply elem_of_nil in Hp|].
    split; [intros p Hp; by apply elem_of_nil in Hp|]. done. }
  simpl.
  set (h0 := <[p := Article.set_FeedID (Feed.ID (hf feed)) (h p)]> h).
  assert (Hinv0 : store_inv h0 as_).
  { apply (store_inv_agree h); [|done]. intros q _. apply set_FeedID_agree. }
  assert (Hid0 : ∀ q, article_id h0 as_ q = article_id h as_ q).
  { intros q. unfold article_id. f_equal.
    apply (set_FeedID_agree h p q (Feed.ID (hf feed))). }
  pose proof (store_inv_Create h0 as_ (Some p) Hinv0) as Hinv1.
  pose proof (Create_effects h0 as_ p) as (_ & Hid1 & Hmono1 & Hnew1).
  pose proof (Create_sublist_frame h0 as_ p) as Hkeep.
  pose proof (Create_no_error h0 as_ (Some p)) as Herr.
  pose proof (Create_FeedID h0 as_ p) as HF.
  destruct (ArticleStore.Create h0 as_ (Some p)) as [[h1 as1] [g err]].
  simpl in *. subst err. destruct Hkeep as (Hsub1 & Hframe1).
  destruct (IH h1 as1 Hinv1)
    as (He & Hinv2 & Hfeed & Hnew & Hframe & Hsub & Hid & Hmono).
  split; [done|]. split; [done|].
  split; [|split; [|split; [|split; [|split]]]].
  - intros q Hq. destruct (decide (q ∈ ps)) as [Hin|Hout]; [by apply Hfeed|].
    apply elem_of_cons in Hq as [->|Hq]; [|done].
    rewrite (Hframe p Hout), HF. unfold h0. by rewrite fn_lookup_insert.
  - intros q Hq. apply elem_of_cons in Hq as [->|Hq].
    + rewrite <- Hid0. destruct Hnew1 as [x Hx]. exists x. by apply Hmono.
    + rewrite <- Hid0, <- Hid1. by apply Hnew.
  - intros q Hq. rewrite elem_of_cons in Hq.
    rewrite Hframe by tauto. rewrite Hframe1 by tauto.
    unfold h0. apply fn_lookup_insert_ne. intros ->. tauto.
  - by etrans.
  - intros q. by rewrite Hid, Hid1.
  - auto.
Qed.

Lemma Consume_store_effects
    (Load : Heap → string → Heap * (list ptr * option error))
    (h h1 : Heap) (hf : FeedHeap) (as_ : ArticleStore.t) (feed : ptr)
    (articles : list ptr) :
  store_inv h1 as_ →
  Load h (Feed.Address (hf feed)) = (h1, (articles, None)) →
  let r := feedconsumer.Consume Load ArticleStore.Create h hf as_ feed in
  r.2 = None
  ∧ store_inv r.1.1 r.1.2
  ∧ (∀ p, p ∈ articles → Article.FeedID (r.1.1 p) = Feed.ID (hf feed))
  ∧ (∀ p, p ∈ articles →
          is_Some (ArticleStore.m r.1.2 !! article_id h1 as_ p))
  ∧ (∀ q, q ∉ articles → r.1.1 q = h1 q)
  ∧ ArticleStore.a as_ `sublist_of` ArticleStore.a r.1.2.
Proof.
  intros Hinv1 HLoad. unfold feedconsumer.Consume. rewrite HLoad.
  pose proof (Consume_loop_store h1 hf as_ feed articles Hinv1)
    as (He & Hinv2 & Hfeed & Hnew & Hfr & Hsub & _ & _).
  case_bool_decide as Hlen; [|done].
  apply length_zero_iff_nil in Hlen. by subst articles.
Qed.

(** X14. The consumer over the article store, when [Load] succeeds and does
    not write to the stored articles of a reachable store: [Consume] returns
    no error; every loaded article carries the identifier of the feed; every
    loaded article's identifier is answered by [Get] with an article of that
    identifier; only loaded articles are written to; the stored articles
    stay, in their order; and the store is again in order, each article
    indexed once under its identifier. *)
Theorem Consume_stores
    (Load : Heap → string → Heap * (list ptr * option error))
    (h h1 : Heap) (hf : FeedHeap) (as_ : ArticleStore.t) (feed : ptr)
    (articles : list ptr) :
  reachable h as_ →
  Load h (Feed.Address (hf feed)) = (h1, (articles, None)) →
  (∀ q, q ∈ ArticleStore.a as_ → h1 q = h q) →
  let '(h2, as2, err) :=
    feedconsumer.Consume Load ArticleStore.Create h hf as_ feed in
  err = None
  ∧ (∀ p, p ∈ articles → Article.FeedID (h2 p) = Feed.ID (hf feed))
  ∧ (∀ p, p ∈ articles →
          ∃ q, ArticleStore.Get as2 (article_id h1 as_ p) = (Some q, None)
               ∧ Article.ID (h2 q) = article_id h1 as_ p)
  ∧ (∀ q, q ∉ articles → h2 q = h1 q)
  ∧ ArticleStore.a as_ `sublist_of` ArticleStore.a as2
  ∧ bijection h2 as2
  ∧ chronological h2 (ArticleStore.a as2).
Proof.
  intros Hr HLoad Hframe. apply reachable_inv in Hr as Hinv.
  assert (Hinv1 : store_inv h1 as_).
  { apply (store_inv_agree h); [|done]. intros q Hq. by rewrite Hframe. }
  pose proof (Consume_store_effects Load h h1 hf as_ feed articles Hinv1
                HLoad) as (He & Hinv2 & Hfeed & Hnew & Hfr & Hsub).
  destruct (feedconsumer.Consume Load ArticleStore.Create h hf as_ feed)
    as [[h2 as2] err].
  simpl in *. destruct Hinv2 as [Hbij _ Hsorted].
  split; [done|]. split; [done|]. split; [|done].
  intros p Hp. destruct (Hnew p Hp) as [q Hq]. exists q.
  unfold ArticleStore.Get.
  rewrite bool_decide_eq_false_2 by apply generateID_nonempty.
  rewrite Hq. split; [done|]. by apply (bij_member _ _ Hbij).
Qed.

Lemma Consume_stores_witness :
  let '(h2, as2, err) :=
    feedconsumer.Consume Examples.load_three ArticleStore.Create
      Examples.ties_store.1 Examples.feed_store.1 Examples.ties_store.2
      0%nat in
  err = None
  ∧ (∀ p, p ∈ [0; 1; 2]%nat →
          Article.FeedID (h2 p) = Feed.ID (Examples.feed_store.1 0%nat))
  ∧ (∀ p, p ∈ [0; 1; 2]%nat →
          ∃ q, ArticleStore.Get as2
                 (article_id Examples.ties_store.1 Examples.ties_store.2 p)
               = (Some q, None)
               ∧ Article.ID (h2 q)
                 = article_id Examples.ties_store.1 Examples.ties_store.2 p)
  ∧ (∀ q, q ∉ [0; 1; 2]%nat → h2 q = Examples.ties_store.1 q)
  ∧ ArticleStore.a Examples.ties_store.2 `sublist_of` ArticleStore.a as2
  ∧ bijection h2 as2
  ∧ chronological h2 (ArticleStore.a as2).
Proof.
  apply (Consume_stores Examples.load_three Examples.ties_store.1
           Examples.ties_store.1 Examples.feed_store.1
           Examples.ties_store.2 0 [0; 1; 2]%nat).
  - apply CreateAll_reachable, reachable_new.
  - reflexivity.
  - reflexivity.
Defined.

(** The consumer on the store that holds articles 0 and 1: article 2 is
    added in front of its tie, and all three carry the feed's identifier. *)
Example Consume_ties :
  let '(h2, as2, err) :=
    feedconsumer.Consume Examples.load_three ArticleStore.Create
      Examples.ties_store.1 Examples.feed_store.1 Examples.ties_store.2
      0%nat in
  err = None ∧ ArticleStore.a as2 = [2; 0; 1]%nat
  ∧ map (λ p, Article.FeedID (h2 p)) [0; 1; 2]%nat
    = ["dbefb2be-dfe0-5513-b23a-cc04c551221e";
       "dbefb2be-dfe0-5513-b23a-cc04c551221e";
       "dbefb2be-dfe0-5513-b23a-cc04c551221e"].
Proof. vm_compute. repeat split. Qed.


(** The consumer's test "bypass store inserting error", with two articles
    behind the one the store refuses: the first article is stored, the second
    is stamped and refused, the third is not touched. *)
Example Consume_store_error :
  let '(h', calls, err) :=
    feedconsumer.Consume Examples.load_three Examples.create_once
      Examples.three Examples.feed_store.1 0%nat 0%nat in
  err = Some "random error" ∧ calls = 2%nat
  ∧ map (λ p, Article.FeedID (h' p)) [0; 1; 2]%nat
    = ["dbefb2be-dfe0-5513-b23a-cc04c551221e";
       "dbefb2be-dfe0-5513-b23a-cc04c551221e"; EmptyString].
Proof. vm_compute. repeat split. Qed.

(** ** The converters *)

Lemma rssToNativeEnclosures_loop_map (ies : list rss.ItemEnclosure)
    (enclosures : list Enclosure.t) :
  converters.rssToNativeEnclosures_loop ies enclosures
  = enclosures ++ map converters.rssToNativeEnclosure ies.
Proof.
  revert enclosures. induction ies as [|ie ies IH]; intros enclosures; simpl.
  - by rewrite app_nil_r.
  - by rewrite IH, <- app_assoc.
Qed.

Section ConvertersFacts.

Variable ParseWithFormat : string → string → time.Time * option error.

Lemma rssToNativeArticle_parses (i : rss.Item) :
  parses ParseWithFormat i →
  ∃ a, converters.rssToNativeArticle ParseWithFormat i = (Some a, None)
       ∧ Article.FeedID a = EmptyString ∧ Article.ID a = EmptyString
       ∧ Article.GUID a = rss.GUID i ∧ Article.Title a = rss.Title i
       ∧ Article.Link a = rss.Link i ∧ Article.Comments a = rss.Comments i
       ∧ Article.PublishDate a
         = (ParseWithFormat (rss.PubDate i) converters.dateFormat).1
       ∧ Article.Categories a = rss.Category i
       ∧ Article.Enclosures a
         = map converters.rssToNativeEnclosure (rss.Enclosure i)
       ∧ Article.Description a = rss.Description i
       ∧ Article.Author a = rss.Author i
       ∧ Article.Content a = rss.Content i
       ∧ Article.FullText a = rss.FullText i.
Proof.
  unfold parses, converters.rssToNativeArticle.
  destruct (ParseWithFormat (rss.PubDate i) converters.dateFormat)
    as [d [e|]]; simpl; [done|]. intros _.
  eexists. split; [reflexivity|]. simpl.
  unfold converters.rssToNativeEnclosures.
  rewrite rssToNativeEnclosures_loop_map. repeat split.
Qed.

Lemma rssToNativeArticle_fails (i : rss.Item) (e : error) :
  (ParseWithFormat (rss.PubDate i) converters.dateFormat).2 = Some e →
  converters.rssToNativeArticle ParseWithFormat i
  = (None, Some ("could not parse publish date: " ++ e)%string).
Proof.
  unfold converters.rssToNativeArticle.
  destruct (ParseWithFormat (rss.PubDate i) converters.dateFormat)
    as [d [e'|]]; simpl; [|done]. by intros [= ->].
Qed.

Lemma RSSToNativeArticles_loop_parses (is_ : list rss.Item)
    (articles : list (option Article.t)) :
  (∀ i, i ∈ is_ → parses ParseWithFormat i) →
  converters.RSSToNativeArticles_loop ParseWithFormat is_ articles
  = (Some (articles
           ++ map (λ i, (converters.rssToNativeArticle ParseWithFormat i).1)
                is_),
     None).
Proof.
  revert articles. induction is_ as [|i is_ IH]; intros articles Hall; simpl.
  - by rewrite app_nil_r.
  - destruct (rssToNativeArticle_parses i) as (a & Ha & _); [apply Hall; left|].
    rewrite Ha. simpl. rewrite IH, <- app_assoc; [done|].
    intros j Hj. apply Hall. by right.
Qed.

Lemma RSSToNativeArticles_loop_fails (l1 l2 : list rss.Item) (i : rss.Item)
    (e : error) (articles : list (option Article.t)) :
  (∀ j, j ∈ l1 → parses ParseWithFormat j) →
  (ParseWithFormat (rss.PubDate i) converters.dateFormat).2 = Some e →
  converters.RSSToNativeArticles_loop ParseWithFormat (l1 ++ i :: l2) articles
  = (None, Some ("could not parse publish date: " ++ e)%string).
Proof.
  revert articles. induction l1 as [|j l1 IH]; intros articles Hall He; simpl.
  - by rewrite (rssToNativeArticle_fails i e He).
  - destruct (rssToNativeArticle_parses j) as (a & Ha & _); [apply Hall; left|].
    rewrite Ha. apply IH; [|done]. intros k Hk. apply Hall. by right.
Qed.

(** Either every date parses or there is a first item whose date does not. *)
Lemma first_failure (is_ : list rss.Item) :
  (∀ i, i ∈ is_ → parses ParseWithFormat i)
  ∨ ∃ l1 i l2 e,
      is_ = l1 ++ i :: l2 ∧ (∀ j, j ∈ l1 → parses ParseWithFormat j)
      ∧ (ParseWithFormat (rss.PubDate i) converters.dateFormat).2 = Some e.
Proof.
  induction is_ as [|i is_ IH].
  - left. intros i Hi. by apply elem_of_nil in Hi.
  - destruct (ParseWithFormat (rss.PubDate i) converters.dateFormat).2
      as [e|] eqn:Hi.
    + right. exists [], i, is_, e. split; [done|]. split; [|done].
      intros j Hj. by apply elem_of_nil in Hj.
    + destruct IH as [Hall|(l1 & j & l2 & e & -> & Hl1 & Hj)].
      * left. intros j Hj. apply elem_of_cons in Hj as [->|Hj]; auto.
      * right. exists (i :: l1), j, l2, e. split; [done|]. split; [|done].
        intros k Hk. apply elem_of_cons in Hk as [->|Hk]; auto.
Qed.

(** X16. [RSSToNativeArticles] on a non-empty slice of items whose dates all
    parse returns no error and as many articles as there are items, none of
    them nil, in the order of the items; each article has the item's GUID,
    title, link, comments, categories, description, author, content and full
    text, the parsed date, the item's enclosures converted one by one, and
    empty identifier and feed identifier. *)
Theorem RSSToNativeArticles_converts (is_ : list rss.Item) :
  is_ ≠ [] → (∀ i, i ∈ is_ → parses ParseWithFormat i) →
  ∃ articles,
    converters.RSSToNativeArticles ParseWithFormat is_
    = (Some articles, None)
    ∧ length articles = length is_
    ∧ ∀ k i, is_ !! k = Some i →
        ∃ a, articles !! k = Some (Some a)
          ∧ Article.FeedID a = EmptyString ∧ Article.ID a = EmptyString
          ∧ Article.GUID a = rss.GUID i ∧ Article.Title a = rss.Title i
          ∧ Article.Link a = rss.Link i
          ∧ Article.Comments a = rss.Comments i
          ∧ Article.PublishDate a
            = (ParseWithFormat (rss.PubDate i) converters.dateFormat).1
          ∧ Article.Categories a = rss.Category i
          ∧ Article.Enclosures a
            = map converters.rssToNativeEnclosure (rss.Enclosure i)
          ∧ Article.Description a = rss.Description i
          ∧ Article.Author a = rss.Author i
          ∧ Article.Content a = rss.Content i
          ∧ Article.FullText a = rss.FullText i.
Proof.
  intros Hne Hall. unfold converters.RSSToNativeArticles.
  rewrite bool_decide_eq_false_2
    by (intros H0; by apply length_zero_iff_nil in H0).
  rewrite RSSToNativeArticles_loop_parses by done. simpl.
  eexists. split; [reflexivity|]. split; [by rewrite length_map|].
  intros k i Hk.
  destruct (rssToNativeArticle_parses i) as (a & Ha & Hfields).
  { apply Hall. by eapply list_elem_of_lookup_2. }
  exists a. split; [|exact Hfields].
  change (map ?f is_) with (f <$> is_).
  by rewrite list_lookup_fmap, Hk; simpl; rewrite Ha.
Qed.

(** X17. [RSSToNativeArticles] fails on the first item whose date does not
    parse: it returns the nil slice and the parser's error behind the
    converter's prefix, whatever the items after it are. *)
Theorem RSSToNativeArticles_first_error (l1 l2 : list rss.Item)
    (i : rss.Item) (e : error) :
  (∀ j, j ∈ l1 → parses ParseWithFormat j) →
  (ParseWithFormat (rss.PubDate i) converters.dateFormat).2 = Some e →
  converters.RSSToNativeArticles ParseWithFormat (l1 ++ i :: l2)
  = (None, Some ("could not parse publish date: " ++ e)%string).
Proof.
  intros Hl1 He. unfold converters.RSSToNativeArticles.
  rewrite bool_decide_eq_false_2
    by (rewrite length_app; simpl; lia).
  by apply RSSToNativeArticles_loop_fails.
Qed.

(** X18. [RSSToNativeArticles] returns no error exactly when every date
    parses, and a slice that is not nil exactly when moreover there is an
    item: never articles together with an error, and nil for no item. *)
Theorem RSSToNativeArticles_all_or_nothing (is_ : list rss.Item) :
  ((converters.RSSToNativeArticles ParseWithFormat is_).2 = None
   ↔ ∀ i, i ∈ is_ → parses ParseWithFormat i)
  ∧ (is_Some (converters.RSSToNativeArticles ParseWithFormat is_).1
     ↔ is_ ≠ [] ∧ ∀ i, i ∈ is_ → parses ParseWithFormat i).
Proof.
  destruct (first_failure is_)
    as [Hall|(l1 & i & l2 & e & -> & Hl1 & He)].
  - destruct is_ as [|i is_].
    + simpl. split; [done|]. split; [intros [x [=]]|intros [? _]; done].
    + unfold converters.RSSToNativeArticles.
      rewrite bool_decide_eq_false_2 by done.
      rewrite RSSToNativeArticles_loop_parses by done.
      simpl. split; [done|]. split; [done|]. intros _. by eexists.
  - unfold converters.RSSToNativeArticles.
    rewrite bool_decide_eq_false_2 by (rewrite length_app; simpl; lia).
    rewrite (RSSToNativeArticles_loop_fails l1 l2 i e [] Hl1 He). simpl.
    assert (Hno : ¬ ∀ j, j ∈ l1 ++ i :: l2 → parses ParseWithFormat j).
    { intros Hall. specialize (Hall i). unfold parses in Hall.
      rewrite He in Hall. discriminate Hall.
      apply elem_of_app. right. left. }
    split; [split; [done|intros; by exfalso]|].
    split; [intros [x [=]]|intros [_ ?]; by exfalso].
Qed.

End ConvertersFacts.

Lemma RSSToNativeArticles_converts_witness :
  ∃ articles,
    converters.RSSToNativeArticles Examples.parse_nonempty
      [Examples.item "guid" "Mon, 02 Jan 2006 15:04:05 MST" [];
       Examples.item "guid_2" "Tue, 12 Jan 2021 00:05:18 GMT"
         [{| rss.URL := "url"; rss.Type_ := "type" |}]]
    = (Some articles, None)
    ∧ length articles = 2%nat.
Proof.
  destruct (RSSToNativeArticles_converts Examples.parse_nonempty
              [Examples.item "guid" "Mon, 02 Jan 2006 15:04:05 MST" [];
               Examples.item "guid_2" "Tue, 12 Jan 2021 00:05:18 GMT"
                 [{| rss.URL := "url"; rss.Type_ := "type" |}]])
    as (articles & Heq & Hlen & _).
  - discriminate.
  - intros i Hi. apply list_elem_of_In in Hi. simpl in Hi.
    destruct Hi as [<-|[<-|[]]]; vm_compute; reflexivity.
  - exists articles. split; [exact Heq|exact Hlen].
Defined.

Lemma RSSToNativeArticles_first_error_witness :
  converters.RSSToNativeArticles Examples.parse_nonempty
    ([Examples.item "guid" "Mon, 02 Jan 2006 15:04:05 MST" []]
     ++ Examples.item "guid_2" EmptyString []
        :: [Examples.item "guid_3" EmptyString []])
  = (None, Some ("could not parse publish date: " ++ "cannot parse")%string).
Proof.
  apply (RSSToNativeArticles_first_error Examples.parse_nonempty).
  - intros i Hi. apply list_elem_of_In in Hi. simpl in Hi.
    destruct Hi as [<-|[]]. vm_compute. reflexivity.
  - vm_compute. reflexivity.
Defined.

(** ** Loading a feed, then listing it *)

(** X19. The path of a load request: the feed is fetched from a reachable
    feed store with [Get], the consumer stores what [Load] delivers into a
    reachable article store, and [List] is then asked for that feed with no
    cursor and no page size. The listing succeeds; it holds exactly the
    stored articles whose feed identifier is the identifier given to [Get];
    and every delivered article that is in the store is in it. *)
Theorem Consume_then_List
    (Load : Heap → string → Heap * (list ptr * option error))
    (h h1 : Heap) (hf : FeedHeap) (fs : FeedStore.t) (as_ : ArticleStore.t)
    (ID : string) (feed : ptr) (articles : list ptr) :
  feed_reachable hf fs → reachable h as_ →
  FeedStore.Get fs ID = (Some feed, None) →
  Load h (Feed.Address (hf feed)) = (h1, (articles, None)) →
  (∀ q, q ∈ ArticleStore.a as_ → h1 q = h q) →
  let '(h2, as2, _) :=
    feedconsumer.Consume Load ArticleStore.Create h hf as_ feed in
  ∃ res,
    ArticleStore.List h2 as2 EmptyString 0 ID [] = (res, None)
    ∧ (∀ p, p ∈ res ↔ p ∈ ArticleStore.a as2 ∧ Article.FeedID (h2 p) = ID)
    ∧ (∀ p, p ∈ articles → p ∈ ArticleStore.a as2 → p ∈ res).
Proof.
  intros Hfr Hr HGet HLoad Hframe. apply reachable_inv in Hr as Hinv.
  assert (ID ≠ EmptyString ∧ Feed.ID (hf feed) = ID) as [Hne Hfeed].
  { unfold FeedStore.Get in HGet. case_bool_decide; [done|].
    destruct (FeedStore.m fs !! ID) as [g|] eqn:Hm; [|done].
    injection HGet as ->. split; [done|].
    by apply (feed_reachable_inv hf fs Hfr). }
  assert (Hinv1 : store_inv h1 as_).
  { apply (store_inv_agree h); [|done]. intros q Hq. by rewrite Hframe. }
  pose proof (Consume_store_effects Load h h1 hf as_ feed articles Hinv1
                HLoad) as (_ & _ & Hstamp & _).
  destruct (feedconsumer.Consume Load ArticleStore.Create h hf as_ feed)
    as [[h2 as2] err].
  simpl in *. rewrite List_spec. simpl. eexists. split; [reflexivity|].
  assert (Hin : ∀ p, p ∈ page 0 (filter (included h2 [] ID)
                                   (ArticleStore.a as2))
                     ↔ p ∈ ArticleStore.a as2 ∧ Article.FeedID (h2 p) = ID).
  { intros p. unfold page. simpl. rewrite list_elem_of_filter.
    unfold included. split.
    - intros [[_ [?|?]] ?]; done.
    - intros [? ?]. split; [split; [by left|by right]|done]. }
  split; [exact Hin|].
  intros p Hp Hstored. apply Hin. split; [done|].
  by rewrite (Hstamp p Hp).
Qed.

Lemma Consume_then_List_witness :
  let '(h2, as2, _) :=
    feedconsumer.Consume Examples.load_three ArticleStore.Create
      Examples.ties_store.1 Examples.feed_store.1 Examples.ties_store.2
      0%nat in
  ∃ res,
    ArticleStore.List h2 as2 EmptyString 0
      "dbefb2be-dfe0-5513-b23a-cc04c551221e" []
    = (res, None)
    ∧ (∀ p, p ∈ res
            ↔ p ∈ ArticleStore.a as2
              ∧ Article.FeedID (h2 p)
                = "dbefb2be-dfe0-5513-b23a-cc04c551221e")
    ∧ (∀ p, p ∈ [0; 1; 2]%nat → p ∈ ArticleStore.a as2 → p ∈ res).
Proof.
  apply (Consume_then_List Examples.load_three Examples.ties_store.1
           Examples.ties_store.1 Examples.feed_store.1 Examples.feed_store.2
           Examples.ties_store.2 "dbefb2be-dfe0-5513-b23a-cc04c551221e"
           0 [0; 1; 2]%nat).
  - apply feed_reachable_Create, feed_reachable_Create, feed_reachable_new.
  - apply CreateAll_reachable, reachable_new.
  - vm_compute. reflexivity.
  - reflexivity.
  - reflexivity.
Defined.
